(** * The document tailoring pipeline of the job packaging service (app.py)

    A shallow embedding of the text normalizer ([extract_pdf_text]), the
    keyword ranker ([extract_keywords]), the section rewriter
    ([polish_resume]), the cover-letter step ([generate_cover_with_ollama])
    and the orchestrator ([process_job]), with the Python primitives they
    are written with: [str] methods, list slices, the stable [sorted], the
    insertion-ordered [dict] and the backtracking matcher of [re]. *)

From Stdlib Require Import String Ascii.
From Stdlib Require Import DecimalString.
From Stdlib Require Import List NArith ZArith Arith Lia Bool.
From Stdlib Require Import Permutation Sorted.
Import ListNotations.

Set Implicit Arguments.

(** ** Python strings

    A Python [str] is a sequence of Unicode code points. *)

Definition cp := N.
Definition str := list cp.

(** An ASCII literal of the source, as a [str]. *)
Definition lit (s : string) : str :=
  map N_of_ascii (list_ascii_of_string s).

Definition BULLET : cp := 0x2022%N.        (* '•' *)
Definition REPLACEMENT : cp := 0xFFFD%N.   (* '�' *)
Definition NUL : cp := 0%N.                (* '\x00' *)
Definition LF : cp := 10%N.                (* '\n' *)
Definition SPACE : cp := 32%N.

Fixpoint str_eqb (a b : str) : bool :=
  match a, b with
  | [], [] => true
  | x :: a', y :: b' => N.eqb x y && str_eqb a' b'
  | _, _ => false
  end.

Definition in_range (lo hi c : cp) : bool := (N.leb lo c && N.leb c hi)%bool.

Definition is_ascii (c : cp) : bool := N.ltb c 128%N.
Definition is_ascii_upper (c : cp) : bool := in_range 65%N 90%N c.
Definition is_ascii_lower (c : cp) : bool := in_range 97%N 122%N c.
Definition is_ascii_digit (c : cp) : bool := in_range 48%N 57%N c.

(** The class [[a-zA-Z]] of a pattern compiled without IGNORECASE. *)
Definition is_ascii_letter (c : cp) : bool :=
  (is_ascii_upper c || is_ascii_lower c)%bool.

Definition ascii_lower (c : cp) : cp :=
  if is_ascii_upper c then (c + 32)%N else c.
Definition ascii_upper (c : cp) : cp :=
  if is_ascii_lower c then (c - 32)%N else c.

(** [str.isspace] of one code point, which is also [\s] of a [str]
    pattern: both are CPython's Py_UNICODE_ISSPACE. *)
Definition isspace (c : cp) : bool :=
  (in_range 0x09%N 0x0D%N c || in_range 0x1C%N 0x20%N c
   || N.eqb c 0x85%N || N.eqb c 0xA0%N || N.eqb c 0x1680%N
   || in_range 0x2000%N 0x200A%N c || N.eqb c 0x2028%N || N.eqb c 0x2029%N
   || N.eqb c 0x202F%N || N.eqb c 0x205F%N || N.eqb c 0x3000%N)%bool.

(** The part of the Unicode character database the program reaches
    through [str.lower], [str.upper] and [\b]. On ASCII these are fixed
    below; beyond ASCII the tables are an input of the model.
    [lower_beyond_ascii before c after] is the full lowercase mapping of
    [c], [before] being the code points to its left, nearest first, and
    [after] those to its right (Python consults them for capital sigma). *)
Class UnicodeData := {
  lower_beyond_ascii : str -> cp -> str -> str;
  upper_beyond_ascii : cp -> str;
  alnum_beyond_ascii : cp -> bool
}.

(** Tables under which every code point beyond ASCII is caseless and is
    not alphanumeric; used to evaluate the program on ASCII text. *)
Definition caseless_beyond_ascii : UnicodeData := {|
  lower_beyond_ascii := fun _ c _ => [c];
  upper_beyond_ascii := fun c => [c];
  alnum_beyond_ascii := fun _ => false
|}.

Section Text.
Context {U : UnicodeData}.

Fixpoint lower_from (before s : str) : str :=
  match s with
  | [] => []
  | c :: after =>
      (if is_ascii c then [ascii_lower c] else lower_beyond_ascii before c after)
        ++ lower_from (c :: before) after
  end.

(** [s.lower()] *)
Definition str_lower (s : str) : str := lower_from [] s.

(** [s.upper()] *)
Definition str_upper (s : str) : str :=
  flat_map (fun c => if is_ascii c then [ascii_upper c] else upper_beyond_ascii c) s.

(** [\w] of a [str] pattern: alphanumeric or underscore. *)
Definition is_word (c : cp) : bool :=
  if is_ascii c
  then (is_ascii_letter c || is_ascii_digit c || N.eqb c 95%N)%bool
  else alnum_beyond_ascii c.

End Text.

Fixpoint lstrip (s : str) : str :=
  match s with
  | c :: s' => if isspace c then lstrip s' else s
  | [] => []
  end.

Definition rstrip (s : str) : str := rev (lstrip (rev s)).

(** [s.strip()] *)
Definition strip (s : str) : str := rstrip (lstrip s).

Fixpoint starts_with (p s : str) : bool :=
  match p, s with
  | [], _ => true
  | a :: p', b :: s' => N.eqb a b && starts_with p' s'
  | _ :: _, [] => false
  end.

(** [sub in s] *)
Fixpoint contains (sub s : str) : bool :=
  starts_with sub s ||
  match s with
  | [] => false
  | _ :: s' => contains sub s'
  end.

(** [sep.join(parts)] *)
Fixpoint join (sep : str) (parts : list str) : str :=
  match parts with
  | [] => []
  | [p] => p
  | p :: ps => p ++ sep ++ join sep ps
  end.

(** The scan of [s.replace(old, new)] for a non-empty [old]: [skip]
    counts the code points of the occurrence being replaced that are
    still to be passed over. *)
Fixpoint replace_scan (old new : str) (skip : nat) (s : str) : str :=
  match s with
  | [] => []
  | c :: s' =>
      match skip with
      | S k => replace_scan old new k s'
      | O =>
          if starts_with old s
          then new ++ replace_scan old new (length old - 1) s'
          else c :: replace_scan old new 0 s'
      end
  end.

(** [s.replace(old, new)]: every occurrence of [old], left to right and
    without overlap; an empty [old] matches between all code points. *)
Definition str_replace (old new s : str) : str :=
  match old with
  | [] => new ++ flat_map (fun c => c :: new) s
  | _ :: _ => replace_scan old new 0 s
  end.

(** [l[:k]] *)
Definition slice_to (A : Type) (k : Z) (l : list A) : list A :=
  if (0 <=? k)%Z then firstn (Z.to_nat k) l
  else firstn (length l - Z.to_nat (- k)) l.

(** ** [sorted(..., key=..., reverse=True)]

    Python's sort is stable, also under [reverse=True]: elements with
    equal keys keep the order they had. *)
Section Sorting.
Variable A : Type.
Variable key : A -> nat.

Fixpoint insert_desc (x : A) (l : list A) : list A :=
  match l with
  | [] => [x]
  | y :: l' => if key x <? key y then y :: insert_desc x l' else x :: l
  end.

Fixpoint sorted_desc (l : list A) : list A :=
  match l with
  | [] => []
  | x :: l' => insert_desc x (sorted_desc l')
  end.

End Sorting.

(** ** An insertion-ordered [dict] from [str] to [int] *)

Definition dict := list (str * nat).

Fixpoint dict_get (d : dict) (k : str) (default : nat) : nat :=
  match d with
  | [] => default
  | (k', v) :: d' => if str_eqb k' k then v else dict_get d' k default
  end.

(** [d[k] = v]: a key already present keeps its place. *)
Fixpoint dict_set (d : dict) (k : str) (v : nat) : dict :=
  match d with
  | [] => [(k, v)]
  | (k', v') :: d' =>
      if str_eqb k' k then (k', v) :: d' else (k', v') :: dict_set d' k v
  end.

(** ** The backtracking matcher of [re]

    The patterns of the program are built from single code point tests,
    sequence, ordered alternation, the greedy [?], greedy repetition of a
    character class, capture groups and [\b]. The matcher tries the
    alternatives in the order Python does and gives the first success. *)

Inductive regex : Type :=
| Empty
| Chr (p : cp -> bool)
| Seq (r1 r2 : regex)
| Alt (r1 r2 : regex)
| Opt (r : regex)
| Rep (p : cp -> bool) (least : nat)
| Group (n : nat) (r : regex)
| WordBoundary.

(** A position of the matcher in the subject: the code point to its
    left, its index, what remains to its right, and the groups closed so
    far. *)
Record cursor := {
  c_left : option cp;
  c_pos : nat;
  c_rest : str;
  c_groups : list (nat * str)
}.

Definition advance (c : cursor) (x : cp) (rest : str) : cursor :=
  {| c_left := Some x; c_pos := S (c_pos c); c_rest := rest;
     c_groups := c_groups c |}.

Definition close_group (n : nat) (opened closed : cursor) : cursor :=
  {| c_left := c_left closed; c_pos := c_pos closed; c_rest := c_rest closed;
     c_groups := (n, firstn (c_pos closed - c_pos opened) (c_rest opened))
                   :: c_groups closed |}.

(** [[class]{least,}], greedy: as many code points as possible, giving
    them back one at a time while the rest of the pattern fails. *)
Fixpoint rep (p : cp -> bool) (least : nat) (k : cursor -> option cursor)
    (left : option cp) (pos : nat) (groups : list (nat * str)) (rest : str)
    : option cursor :=
  let stop :=
    match least with
    | O => k {| c_left := left; c_pos := pos; c_rest := rest; c_groups := groups |}
    | S _ => None
    end in
  match rest with
  | x :: rest' =>
      if p x then
        match rep p (pred least) k (Some x) (S pos) groups rest' with
        | Some c => Some c
        | None => stop
        end
      else stop
  | [] => stop
  end.

(** A match object: [m.start()], [m.end()], [m.group(0)] and the groups. *)
Record re_match := {
  m_start : nat;
  m_end : nat;
  m_span : str;
  m_groups : list (nat * str)
}.

Fixpoint assoc_group (n : nat) (gs : list (nat * str)) : str :=
  match gs with
  | [] => []
  | (i, s) :: gs' => if Nat.eqb i n then s else assoc_group n gs'
  end.

(** [m.group(n)] *)
Definition group (m : re_match) (n : nat) : str :=
  match n with
  | O => m_span m
  | S _ => assoc_group n (m_groups m)
  end.

(** The pieces of [s] between the matches [ms], [pos] being the index
    of the first code point of [s] in the subject. *)
Fixpoint between (ms : list re_match) (pos : nat) (s : str) : list str :=
  match ms with
  | [] => [s]
  | m :: ms' =>
      firstn (m_start m - pos) s
        :: between ms' (m_end m) (skipn (m_end m - pos) s)
  end.

Section Regex.
Context {U : UnicodeData}.

Definition word_at (o : option cp) : bool :=
  match o with
  | Some c => is_word c
  | None => false
  end.

Fixpoint run (r : regex) (k : cursor -> option cursor) (c : cursor)
    : option cursor :=
  match r with
  | Empty => k c
  | Chr p =>
      match c_rest c with
      | x :: rest => if p x then k (advance c x rest) else None
      | [] => None
      end
  | Seq r1 r2 => run r1 (run r2 k) c
  | Alt r1 r2 =>
      match run r1 k c with
      | Some c' => Some c'
      | None => run r2 k c
      end
  | Opt r1 =>
      match run r1 k c with
      | Some c' => Some c'
      | None => k c
      end
  | Rep p least => rep p least k (c_left c) (c_pos c) (c_groups c) (c_rest c)
  | Group n r1 => run r1 (fun c' => k (close_group n c c')) c
  | WordBoundary =>
      if xorb (word_at (c_left c)) (word_at (hd_error (c_rest c)))
      then k c else None
  end.

(** The match of [r] that starts at the position given, if any. *)
Definition match_here (r : regex) (left : option cp) (pos : nat) (rest : str)
    : option re_match :=
  match run r Some {| c_left := left; c_pos := pos; c_rest := rest;
                      c_groups := [] |} with
  | Some c => Some {| m_start := pos; m_end := c_pos c;
                      m_span := firstn (c_pos c - pos) rest;
                      m_groups := c_groups c |}
  | None => None
  end.

(** The scan shared by [re.finditer], [re.findall], [re.sub] and
    [re.split]: the leftmost match, then the leftmost match after its
    end, and so on. [skip] counts the code points of the last match
    still to be passed over. Every pattern of the program consumes at
    least one code point, so no match is sought at the end of the
    subject. *)
Fixpoint scan (r : regex) (left : option cp) (pos skip : nat) (rest : str)
    : list re_match :=
  match rest with
  | [] => []
  | x :: rest' =>
      match skip with
      | S n => scan r (Some x) (S pos) n rest'
      | O =>
          match match_here r left pos rest with
          | Some m => m :: scan r (Some x) (S pos) (m_end m - pos - 1) rest'
          | None => scan r (Some x) (S pos) 0 rest'
          end
      end
  end.

(** [re.finditer(r, s)] *)
Definition finditer (r : regex) (s : str) : list re_match := scan r None 0 0 s.

(** [re.findall(r, s)] for a pattern without groups *)
Definition re_findall (r : regex) (s : str) : list str :=
  map m_span (finditer r s).

(** [re.split(r, s)] for a pattern without groups *)
Definition re_split (r : regex) (s : str) : list str :=
  between (finditer r s) 0 s.

(** [re.sub(r, repl, s)] for a replacement without escapes *)
Definition re_sub (r : regex) (repl s : str) : str :=
  join repl (re_split r s).

End Regex.

(** ** Keyword ranker: [extract_keywords] *)

(** [\b[a-zA-Z]{3,}\b] *)
Definition word_pattern : regex :=
  Seq WordBoundary (Seq (Rep is_ascii_letter 3) WordBoundary).

Definition stop_words : list str :=
  map lit
    ["the"; "and"; "or"; "but"; "in"; "on"; "at"; "to"; "for"; "of"; "with";
     "by"; "is"; "are"; "was"; "were"; "be"; "been"; "have"; "has"; "had";
     "do"; "does"; "did"; "will"; "would"; "could"; "should"; "may"; "might";
     "can"; "this"; "that"; "these"; "those"; "a"; "an"; "as"; "from"; "not";
     "all"; "any"; "each"; "every"; "no"; "some"; "such"; "than"; "too"; "very"
    ]%string.

(** [w in words] *)
Definition member (w : str) (words : list str) : bool :=
  existsb (str_eqb w) words.

(** The loop [word_counts[word] = word_counts.get(word, 0) + 1]. *)
Definition count_words (words : list str) : dict :=
  fold_left (fun d w => dict_set d w (dict_get d w 0 + 1)) words [].

Section KeywordRanker.
Context {U : UnicodeData}.

(** The tokens that survive the stop-word filter, in text order. *)
Definition surviving_words (text : str) : list str :=
  filter (fun w => negb (member w stop_words))
         (re_findall word_pattern (str_lower text)).

(** The pairs [sorted(word_counts.items(), key=count, reverse=True)]. *)
Definition ranked (words : list str) : list (str * nat) :=
  sorted_desc snd (count_words words).

(** [extract_keywords(text, top_k)] for a [str] and an [int], on which no
    statement of the [try] body raises. *)
Definition extract_keywords (text : str) (top_k : Z) : list str :=
  let words := surviving_words text in
  match words with
  | [] => []
  | _ :: _ => map fst (slice_to top_k (ranked words))
  end.

(** [extract_keywords(text)]: [top_k] defaults to 10. *)
Definition extract_keywords_default (text : str) : list str :=
  extract_keywords text 10.

End KeywordRanker.


(** ** Python values and exceptions

    The functions of app.py are dynamically typed. Where a claim is
    about what happens when a statement raises, arguments are Python
    values and a computation either returns or raises. *)

Unset Elimination Schemes.
Inductive pyval : Type :=
| PNone
| PInt (z : Z)
| PStr (s : str)
| PList (items : list pyval)
| PDict (fields : list (str * pyval)).
Set Elimination Schemes.

(** [type(v).__name__] *)
Definition type_name (v : pyval) : str :=
  match v with
  | PNone => lit "NoneType"
  | PInt _ => lit "int"
  | PStr _ => lit "str"
  | PList _ => lit "list"
  | PDict _ => lit "dict"
  end.

(** The exception classes the program tells apart: [except Exception]
    catches all but [BaseOnly] (KeyboardInterrupt, SystemExit), and
    [except requests.exceptions.RequestException] catches the third. *)
Inductive exn_class : Type :=
| TypeError
| AttributeError
| RequestException
| OtherException
| BaseOnly.

(** An exception: its class and [str(e)]. *)
Record exn := { exn_class_of : exn_class; exn_str : str }.

Definition is_Exception (e : exn) : bool :=
  match exn_class_of e with
  | BaseOnly => false
  | _ => true
  end.

Definition is_RequestException (e : exn) : bool :=
  match exn_class_of e with
  | RequestException => true
  | _ => false
  end.

Inductive result (A : Type) : Type :=
| Ok (a : A)
| Raise (e : exn).
Arguments Ok {A} a.
Arguments Raise {A} e.

Definition bind (A B : Type) (c : result A) (k : A -> result B) : result B :=
  match c with
  | Ok a => k a
  | Raise e => Raise e
  end.

Notation "x <- c ;; k" := (bind c (fun x => k))
  (at level 61, c at next level, right associativity).

(** [for x in xs: acc = step(acc, x)], stopping at the first exception. *)
Fixpoint for_each (A B : Type) (step : B -> A -> result B) (xs : list A)
    (acc : B) : result B :=
  match xs with
  | [] => Ok acc
  | x :: xs' => acc' <- step acc x ;; for_each step xs' acc'
  end.

(** ['<type>' object has no attribute '<name>'] *)
Definition no_attribute (v : pyval) (name : string) : exn :=
  {| exn_class_of := AttributeError;
     exn_str := lit "'" ++ type_name v ++ lit "' object has no attribute '"
                  ++ lit name ++ lit "'" |}.

(** A [TypeError]; the program never reads the message of one. *)
Definition type_error (v : pyval) (what : string) : exn :=
  {| exn_class_of := TypeError;
     exn_str := lit "'" ++ type_name v ++ lit "' object " ++ lit what |}.

(** The items a [for] loop takes from a value: the elements of a list,
    the code points of a [str] as strings of length one. *)
Definition iterate (v : pyval) : result (list pyval) :=
  match v with
  | PList items => Ok items
  | PStr s => Ok (map (fun c => PStr [c]) s)
  | PDict fields => Ok (map (fun f => PStr (fst f)) fields)
  | _ => Raise (type_error v "is not iterable")
  end.

(** ** Text normalizer: [extract_pdf_text] *)

(** [\s+] *)
Definition whitespace_run : regex := Rep isspace 1.

Section Normalizer.
Context {U : UnicodeData}.

(** The cleaning steps of [extract_pdf_text] (lines 63 to 70), which
    the specification calls [normalize]. *)
Definition normalize (text : str) : str :=
  let text := str_replace [REPLACEMENT] [BULLET] text in
  let text := str_replace [NUL] [] text in
  let text := re_sub whitespace_run [SPACE] text in
  let text := str_replace [BULLET] [SPACE; BULLET; SPACE] text in
  strip text.

(** [extract_pdf_text(pdf_path)]: [pages] is what opening the file and
    [page.extract_text()] gave, page by page, or the exception one of
    them raised (PyPDF2 and the file system are outside the program). *)
Definition extract_pdf_text (pages : result (list str)) : str :=
  match pages with
  | Ok texts => normalize (flat_map (fun page => page ++ [LF]) texts)
  | Raise _ => []
  end.

End Normalizer.

(** ** Section rewriter: [polish_resume] *)

(** A literal code point of a pattern compiled with [re.IGNORECASE]
    matches the code points whose lowercase is its lowercase; besides
    the two cases of an ASCII letter these are U+0130 and U+0131 for
    "i", U+212A for "k" and U+017F for "s". *)
Definition matches_ignorecase (pat c : cp) : bool :=
  let l := ascii_lower pat in
  ((is_ascii c && N.eqb (ascii_lower c) l)
   || (N.eqb l 105%N && (N.eqb c 0x130%N || N.eqb c 0x131%N))
   || (N.eqb l 107%N && N.eqb c 0x212A%N)
   || (N.eqb l 115%N && N.eqb c 0x17F%N))%bool.

(** A literal of a pattern under [re.IGNORECASE]. *)
Definition icase (s : string) : regex :=
  fold_right (fun c r => Seq (Chr (matches_ignorecase c)) r) Empty (lit s).

(** [WORDS?]: the literal, then an optional "S". *)
Definition plural (s : string) : regex :=
  Seq (icase s) (Opt (icase "S")).

Fixpoint alternatives (rs : list regex) : regex :=
  match rs with
  | [] => Empty
  | [r] => r
  | r :: rs' => Alt r (alternatives rs')
  end.

(** [[:\s]] *)
Definition colon_or_space (c : cp) : bool := (N.eqb c 58%N || isspace c)%bool.

(** [[^•\n]] *)
Definition section_char (c : cp) : bool :=
  negb (N.eqb c BULLET || N.eqb c LF)%bool.

(** [(labels)[:\s]*([^•\n]+)] *)
Definition skill_pattern (labels : list regex) : regex :=
  Seq (Group 1 (alternatives labels))
      (Seq (Rep colon_or_space 0) (Group 2 (Rep section_char 1))).

Definition skill_patterns : list regex :=
  [ skill_pattern [plural "TECHNICAL SKILL"; plural "SKILL";
                   plural "TECHNOLOGIE"; plural "PROGRAMMING LANGUAGE";
                   plural "TOOL"; plural "FRAMEWORK"];
    skill_pattern [plural "LANGUAGE"; icase "PROGRAMMING"];
    skill_pattern [plural "FRAMEWORK"; plural "LIBRARIE"; plural "TOOL"] ].

(** [[,;•\n]+] *)
Definition item_delimiters : regex :=
  Rep (fun c => N.eqb c 44%N || N.eqb c 59%N || N.eqb c BULLET || N.eqb c LF)%bool 1.

Definition is_empty (s : str) : bool :=
  match s with
  | [] => true
  | _ :: _ => false
  end.

Section SectionRewriter.
Context {U : UnicodeData}.

(** [v.lower()] *)
Definition lower_of (v : pyval) : result str :=
  match v with
  | PStr s => Ok (str_lower s)
  | _ => Raise (no_attribute v "lower")
  end.

(** [v.upper()] *)
Definition upper_of (v : pyval) : result str :=
  match v with
  | PStr s => Ok (str_upper s)
  | _ => Raise (no_attribute v "upper")
  end.

(** The items of a section: split on the delimiters, trimmed, the
    empty ones dropped. *)
Definition split_items (section_content : str) : list str :=
  filter (fun item => negb (is_empty item))
         (map strip (re_split item_delimiters section_content)).

(** The inner loop: one more for every keyword the item contains. *)
Definition score_item (keywords : pyval) (item : str) : result nat :=
  let item_lower := str_lower item in
  ks <- iterate keywords ;;
  for_each (fun score keyword =>
              k <- lower_of keyword ;;
              Ok (if contains k item_lower then score + 1 else score))
           ks 0.

(** The loop that fills [scored_items]. *)
Definition score_items (keywords : pyval) (items : list str)
    : result (list (str * nat)) :=
  for_each (fun scored_items item =>
              score <- score_item keywords item ;;
              Ok (scored_items ++ [(item, score)]))
           items [].

(** The body of the loop over the matches of one pattern. *)
Definition rewrite_section (keywords : pyval) (polished_text : str)
    (m : re_match) : result str :=
  let section_header := group m 1 in
  let section_content := group m 2 in
  let items := split_items section_content in
  match items with
  | [] => Ok polished_text
  | _ :: _ =>
      scored_items <- score_items keywords items ;;
      let scored_items := sorted_desc snd scored_items in
      let new_content := join (lit ", ") (map fst scored_items) in
      let new_section := section_header ++ lit ": " ++ new_content in
      Ok (str_replace (group m 0) new_section polished_text)
  end.

(** The loop over one pattern: the matches are those of the text as it
    is when the loop starts, the replacements go to the current text. *)
Definition rewrite_pattern (keywords : pyval) (polished_text : str)
    (pattern : regex) : result str :=
  for_each (rewrite_section keywords) (finditer pattern polished_text)
           polished_text.

(** [', '.join(keywords[:5])] *)
Definition top_keywords_str (keywords : pyval) : result str :=
  match keywords with
  | PList items =>
      strs <- for_each (fun acc v =>
                          match v with
                          | PStr s => Ok (acc ++ [s])
                          | _ => Raise (type_error v "is not a str")
                          end)
                       (firstn 5 items) [] ;;
      Ok (join (lit ", ") strs)
  | PStr s => Ok (join (lit ", ") (map (fun c => [c]) (firstn 5 s)))
  | _ => Raise (type_error keywords "is not subscriptable")
  end.

(** The [try] body of [polish_resume]. *)
Definition polish_resume_body (resume_text keywords job_title company_name : pyval)
    : result pyval :=
  match resume_text with
  | PStr text =>
      polished_text <- for_each (rewrite_pattern keywords) skill_patterns text ;;
      top <- top_keywords_str keywords ;;
      title <- upper_of job_title ;;
      company <- upper_of company_name ;;
      let header := [LF; LF] ++ lit "TAILORED FOR " ++ title ++ lit " AT "
                      ++ company ++ lit ": " ++ top ++ [LF] in
      let header := header ++ repeat 61%N 80 ++ [LF] in
      Ok (PStr (header ++ polished_text))
  | _ => Raise (type_error resume_text "is not a string to search")
  end.

(** [polish_resume(resume_text, keywords, job_title, company_name)]:
    an [Exception] of the body is logged and the résumé text given
    back; anything else propagates. *)
Definition polish_resume (resume_text keywords job_title company_name : pyval)
    : result pyval :=
  match polish_resume_body resume_text keywords job_title company_name with
  | Ok v => Ok v
  | Raise e => if is_Exception e then Ok resume_text else Raise e
  end.

End SectionRewriter.


(** ** Configuration *)

Definition UPLOAD_FOLDER : str := lit "uploads".
Definition USER_ID : str := lit "default_user".
Definition OLLAMA_URL : str := lit "http://localhost:11434/api/generate".
Definition OLLAMA_MODEL : str := lit "llama3:8b".

(** [str(n)] of an [int] *)
Definition str_of_int (z : Z) : str :=
  lit (NilZero.string_of_int (Z.to_int z)).

(** [os.path.join(...)] of relative parts, on a POSIX system *)
Definition path_join (parts : list str) : str := join (lit "/") parts.

(** ** Cover letter: [generate_cover_with_ollama] *)

(** The JSON body of the request. *)
Record payload := {
  p_model : str;
  p_prompt : str;
  p_stream : bool
}.

(** What [requests.post(url, json=payload, timeout=60)] does: it raises
    (connection refused, timeout, ...) or gives a response with its
    status code, its text and what [response.json()] would give. *)
Inductive post_outcome : Type :=
| PostRaised (e : exn)
| Responded (status_code : Z) (text : str) (json : result pyval).

Fixpoint lookup (key : str) (fields : list (str * pyval)) : option pyval :=
  match fields with
  | [] => None
  | (k, v) :: fields' => if str_eqb k key then Some v else lookup key fields'
  end.

(** [v.get(key, default)] *)
Definition get_of (v : pyval) (key : str) (default : pyval) : result pyval :=
  match v with
  | PDict fields =>
      match lookup key fields with
      | Some x => Ok x
      | None => Ok default
      end
  | _ => Raise (no_attribute v "get")
  end.

Definition cover_prompt (resume_text cover_template job_title company_name
    job_description : str) : str :=
  lit "Based on the following resume:" ++ [LF]
  ++ resume_text ++ [LF; LF]
  ++ lit "And this example cover letter structure and style:" ++ [LF]
  ++ cover_template ++ [LF; LF]
  ++ lit "Generate a completely unique, personalized cover letter for the position of "
  ++ job_title ++ lit " at " ++ company_name
  ++ lit ". The job description is:" ++ [LF]
  ++ job_description ++ [LF; LF]
  ++ lit "Highlight relevant experiences, skills, and achievements from the resume that match the job. Keep the tone professional, enthusiastic, and aligned with the example's spirit. Structure it with header, date, greeting (Dear "
  ++ company_name
  ++ lit " Team,), body paragraphs, and closing. Do not fabricate any information.".

Definition cover_payload (resume_text cover_template job_title company_name
    job_description : str) : payload :=
  {| p_model := OLLAMA_MODEL;
     p_prompt := cover_prompt resume_text cover_template job_title
                   company_name job_description;
     p_stream := false |}.

(** [generate_cover_with_ollama(...)], [post] standing for
    [requests.post]. *)
Definition generate_cover_with_ollama (post : str -> payload -> post_outcome)
    (resume_text cover_template job_title company_name job_description : str)
    : result pyval :=
  let body :=
    match post OLLAMA_URL
            (cover_payload resume_text cover_template job_title company_name
               job_description) with
    | PostRaised e => Raise e
    | Responded status_code text json =>
        if (status_code =? 200)%Z then
          result <- json ;;
          get_of result (lit "response") (PStr [])
        else
          Ok (PStr (lit "Error generating cover letter: Ollama API returned "
                      ++ str_of_int status_code))
    end in
  match body with
  | Ok v => Ok v
  | Raise e =>
      if is_RequestException e then
        Ok (PStr (lit "Error: Could not connect to Ollama. Please ensure Ollama is running on "
                    ++ OLLAMA_URL))
      else if is_Exception e then
        Ok (PStr (lit "Error generating cover letter: " ++ exn_str e))
      else Raise e
  end.

(** ** Orchestrator: [process_job] *)

(** What a request meets outside the program. *)
Record world := {
  (** [request.form] *)
  form : list (str * str);
  (** the files under the upload folder: absent, or what reading one
      gives *)
  files : str -> option (result str);
  (** [requests.post] *)
  post : str -> payload -> post_outcome;
  (** [datetime.now().strftime("%Y%m%d_%H%M%S")] *)
  now : str;
  (** whether FPDF lays out the text under the title and writes the
      file without raising *)
  fpdf : str -> str -> str -> bool;
  (** writing the archive: its path, and the files with their names in
      it *)
  zip : str -> list (str * str) -> result unit
}.

(** The calls the orchestrator makes, in order. *)
Inductive event : Type :=
| Ranked (job_description : str)
| Polished (resume_text : str) (keywords : list str)
| Posted (url : str) (p : payload)
| Rendered (text : pyval) (filename title : str)
| Zipped (zip_path : str) (members : list (str * str)).

(** A step of the orchestrator: it adds to the calls made so far and
    returns or raises. *)
Definition M (A : Type) : Type := list event -> result A * list event.

Definition ret (A : Type) (a : A) : M A := fun t => (Ok a, t).

Definition lift (A : Type) (r : result A) : M A := fun t => (r, t).

Definition emit (e : event) : M unit := fun t => (Ok tt, t ++ [e]).

Definition bindM (A B : Type) (c : M A) (k : A -> M B) : M B :=
  fun t =>
    match c t with
    | (Ok a, t') => k a t'
    | (Raise e, t') => (Raise e, t')
    end.

Notation "x <~ c ;; k" := (bindM c (fun x => k))
  (at level 61, c at next level, right associativity).
Notation "c ;;; k" := (bindM c (fun _ => k))
  (at level 61, right associativity).

(** [try: body except Exception as e: handler(e)] *)
Definition try_except (A : Type) (body : M A) (handler : exn -> M A) : M A :=
  fun t =>
    match body t with
    | (Ok a, t') => (Ok a, t')
    | (Raise e, t') => if is_Exception e then handler e t' else (Raise e, t')
    end.

(** The body of a JSON response. *)
Inductive json_body : Type :=
| Error (message : str)
| Success (resume_pdf cover_pdf zip_file : str) (keywords : list str).

Record response := { status : Z; body : json_body }.

(** [request.form.get(key, '')] *)
Fixpoint form_get (fields : list (str * str)) (key : str) : str :=
  match fields with
  | [] => []
  | (k, v) :: fields' => if str_eqb k key then v else form_get fields' key
  end.

(** [os.path.exists(path)] *)
Definition path_exists (w : world) (path : str) : bool :=
  match files w path with
  | Some _ => true
  | None => false
  end.

(** [open(path, 'r', encoding='utf-8').read()] of a path that exists *)
Definition read_text (w : world) (path : str) : result str :=
  match files w path with
  | Some r => r
  | None => Raise {| exn_class_of := OtherException;
                     exn_str := lit "No such file or directory" |}
  end.

(** [create_pdf(text, filename, title)]: the layout is FPDF's; an
    exception of it, or of [text.split] when [text] is no [str], is
    caught and gives [False]. *)
Definition create_pdf (w : world) (text : pyval) (filename title : str)
    : M bool :=
  emit (Rendered text filename title) ;;;
  ret (match text with
       | PStr t => fpdf w t filename title
       | _ => false
       end).

Definition resume_text_path : str :=
  path_join [UPLOAD_FOLDER; lit "texts"; USER_ID ++ lit "_resume.txt"].
Definition cover_text_path : str :=
  path_join [UPLOAD_FOLDER; lit "texts"; USER_ID ++ lit "_cover_letter.txt"].

(** The names of the artifacts of a request, after its timestamp. *)
Definition resume_pdf_name (timestamp : str) : str :=
  lit "tailored_resume_" ++ timestamp ++ lit ".pdf".
Definition cover_pdf_name (timestamp : str) : str :=
  lit "tailored_cover_" ++ timestamp ++ lit ".pdf".
Definition zip_name (timestamp : str) : str :=
  lit "job_package_" ++ timestamp ++ lit ".zip".

(** [all([...])] of strings: none is empty. *)
Definition all_nonempty (l : list str) : bool :=
  forallb (fun s => negb (is_empty s)) l.

Section Orchestrator.
Context {U : UnicodeData}.

Definition process_job (w : world) : M response :=
  try_except
    (let job_title := strip (form_get (form w) (lit "job_title")) in
     let company_name := strip (form_get (form w) (lit "company_name")) in
     let job_description := strip (form_get (form w) (lit "job_description")) in
     if negb (all_nonempty [job_title; company_name; job_description]) then
       ret {| status := 400; body := Error (lit "All fields are required") |}
     else if negb (path_exists w resume_text_path) then
       ret {| status := 400;
              body := Error (lit "Resume template not found. Please upload a resume first.") |}
     else if negb (path_exists w cover_text_path) then
       ret {| status := 400;
              body := Error (lit "Cover letter template not found. Please upload a cover letter first.") |}
     else
       resume_text <~ lift (read_text w resume_text_path) ;;
       cover_template <~ lift (read_text w cover_text_path) ;;
       emit (Ranked job_description) ;;;
       let keywords := extract_keywords job_description 10 in
       emit (Polished resume_text keywords) ;;;
       polished_resume <~
         lift (polish_resume (PStr resume_text) (PList (map PStr keywords))
                 (PStr job_title) (PStr company_name)) ;;
       emit (Posted OLLAMA_URL
               (cover_payload resume_text cover_template job_title
                  company_name job_description)) ;;;
       generated_cover <~
         lift (generate_cover_with_ollama (post w) resume_text
                 cover_template job_title company_name job_description) ;;
       let timestamp := now w in
       let resume_pdf_path := path_join [UPLOAD_FOLDER; resume_pdf_name timestamp] in
       let cover_pdf_path := path_join [UPLOAD_FOLDER; cover_pdf_name timestamp] in
       resume_success <~
         create_pdf w polished_resume resume_pdf_path
           (lit "Tailored Resume - " ++ job_title) ;;
       cover_success <~
         create_pdf w generated_cover cover_pdf_path
           (lit "Cover Letter - " ++ job_title) ;;
       if (negb resume_success || negb cover_success)%bool then
         ret {| status := 500; body := Error (lit "Failed to create PDF files") |}
       else
         let zip_path := path_join [UPLOAD_FOLDER; zip_name timestamp] in
         let members := [(resume_pdf_path, resume_pdf_name timestamp);
                         (cover_pdf_path, cover_pdf_name timestamp)] in
         emit (Zipped zip_path members) ;;;
         lift (zip w zip_path members) ;;;
         ret {| status := 200;
                body := Success resume_pdf_path cover_pdf_path zip_path
                          keywords |})
    (fun e =>
       ret {| status := 500;
              body := Error (lit "Processing failed: " ++ exn_str e) |}).

End Orchestrator.

(** ** Upload checks: [allowed_file] *)

Definition ALLOWED_EXTENSIONS : list str := [lit "pdf"].

(** [s.rsplit(sep, 1)]: [s] cut in two at its last [sep], or [s] alone
    when it has none. *)
Fixpoint rsplit1 (sep : cp) (s : str) : list str :=
  match s with
  | [] => [[]]
  | c :: s' =>
      match rsplit1 sep s' with
      | [before; after] => [c :: before; after]
      | _ => if N.eqb c sep then [[]; s'] else [c :: s']
      end
  end.

Section AllowedFile.
Context {U : UnicodeData}.

(** [allowed_file(filename)]; the index [1] is only taken when the
    name has a dot. *)
Definition allowed_file (filename : str) : bool :=
  contains (lit ".") filename &&
  match nth_error (rsplit1 46%N filename) 1 with
  | Some extension => member (str_lower extension) ALLOWED_EXTENSIONS
  | None => false
  end.

End AllowedFile.

(** ** Template ingestion: [upload_templates] *)

(** An uploaded file: its name, and what PyPDF2 reads from it once it
    is saved (page texts, or the exception raised). *)
Record upload := {
  filename : str;
  pages : result (list str)
}.

(** A request to [/upload_templates] and what its writes meet:
    [request.files.get('resume')], [request.files.get('cover_letter')],
    [file.save(filepath)] and writing a text file. *)
Record upload_request := {
  resume_file : option upload;
  cover_file : option upload;
  save_pdf : str -> result unit;
  write_text : str -> str -> result unit
}.

(** The upload folder: the PDF files saved, and the text files with
    what reading one gives (as [files] of a [world]). *)
Record store := {
  pdfs : list str;
  texts : str -> option (result str)
}.

Inductive upload_body : Type :=
| UploadError (message : str)
| UploadSuccess (message : str).

Record upload_response := { upload_status : Z; upload_body_of : upload_body }.

(** How one of the two blocks of [upload_templates] ends: it goes on
    with the list [uploaded_files], returns a response, or raises. *)
Inductive block_end : Type :=
| GoesOn (uploaded_files : list str) (st : store)
| Returns (r : upload_response) (st : store)
| Raises (e : exn) (st : store).

Section UploadTemplates.
Context {U : UnicodeData}.

(** One block: the source has it twice, for the résumé ([label]
    "resume", [shown] "resume") and for the cover letter ([label]
    "cover_letter", [shown] "cover letter"). A file counts when it is
    there and has a name; [secure_filename] leaves the two file names
    as they are. What a failed write leaves on disk is not modelled:
    the store is then left as it was before the write. *)
Definition upload_block (req : upload_request) (file : option upload)
    (label shown : str) (uploaded_files : list str) (st : store) : block_end :=
  match file with
  | Some f =>
      if negb (is_empty (filename f)) then
        if allowed_file (filename f) then
          let filepath :=
            path_join [UPLOAD_FOLDER; lit "pdfs";
                       USER_ID ++ lit "_" ++ label ++ lit ".pdf"] in
          match save_pdf req filepath with
          | Raise e => Raises e st
          | Ok _ =>
              let saved := {| pdfs := pdfs st ++ [filepath];
                              texts := texts st |} in
              let text := extract_pdf_text (pages f) in
              let text_path :=
                path_join [UPLOAD_FOLDER; lit "texts";
                           USER_ID ++ lit "_" ++ label ++ lit ".txt"] in
              match write_text req text_path text with
              | Raise e => Raises e saved
              | Ok _ =>
                  GoesOn (uploaded_files ++ [label])
                    {| pdfs := pdfs saved;
                       texts := fun path =>
                         if str_eqb path text_path then Some (Ok text)
                         else texts saved path |}
              end
          end
        else
          Returns {| upload_status := 400;
                     upload_body_of :=
                       UploadError (lit "Invalid file type for " ++ shown) |}
                  st
      else GoesOn uploaded_files st
  | None => GoesOn uploaded_files st
  end.

(** [upload_templates()]: the response or the exception that leaves
    the function, and the upload folder afterwards. *)
Definition upload_templates (req : upload_request) (st : store)
    : result upload_response * store :=
  let handler e st' :=
    if is_Exception e
    then (Ok {| upload_status := 500;
                upload_body_of :=
                  UploadError (lit "Upload failed: " ++ exn_str e) |}, st')
    else (Raise e, st') in
  match upload_block req (resume_file req) (lit "resume") (lit "resume")
          [] st with
  | Returns r st' => (Ok r, st')
  | Raises e st' => handler e st'
  | GoesOn uploaded_files st1 =>
      match upload_block req (cover_file req) (lit "cover_letter")
              (lit "cover letter") uploaded_files st1 with
      | Returns r st' => (Ok r, st')
      | Raises e st' => handler e st'
      | GoesOn uploaded_files st2 =>
          if negb (match uploaded_files with [] => true | _ :: _ => false end)
          then (Ok {| upload_status := 200;
                      upload_body_of :=
                        UploadSuccess (lit "Successfully uploaded: "
                                         ++ join (lit ", ") uploaded_files) |},
                st2)
          else (Ok {| upload_status := 400;
                      upload_body_of :=
                        UploadError (lit "No valid files uploaded") |}, st2)
      end
  end.

End UploadTemplates.

(** ** Document renderer: the lines of [create_pdf] *)

(** [[A-Z\s]] *)
Definition upper_or_space (c : cp) : bool := (is_ascii_upper c || isspace c)%bool.

(** [[A-Z\s]+:], to be followed by [$] *)
Definition heading_pattern : regex :=
  Seq (Rep upper_or_space 1) (Chr (N.eqb 58%N)).

(** [$]: the end of the string, or just before a newline that ends
    it. *)
Definition at_dollar (c : cursor) : option cursor :=
  match c_rest c with
  | [] => Some c
  | [x] => if N.eqb x LF then Some c else None
  | _ :: _ :: _ => None
  end.

(** [s.split('\n')] *)
Fixpoint split_lines (s : str) : list str :=
  match s with
  | [] => [[]]
  | c :: s' =>
      if N.eqb c LF then [] :: split_lines s'
      else match split_lines s' with
           | line :: lines => (c :: line) :: lines
           | [] => []
           end
  end.

(** The calls [create_pdf] makes on the FPDF object ([cell] is always
    called with [ln=True]). *)
Inductive fpdf_call : Type :=
| AddPage
| SetFont (style : string) (size : nat)
| Cell (w h : nat) (txt : str) (align : string)
| MultiCell (w h : nat) (txt : str)
| Ln (h : nat)
| Output (name : str).

Section Renderer.
Context {U : UnicodeData}.

(** [re.match(r'^[A-Z\s]+:$', s)] *)
Definition is_heading (s : str) : bool :=
  match run heading_pattern at_dollar
          {| c_left := None; c_pos := 0; c_rest := s; c_groups := [] |} with
  | Some _ => true
  | None => false
  end.

(** The body of the loop over the lines. *)
Definition line_calls (line : str) : list fpdf_call :=
  if negb (is_empty (strip line)) then
    (if is_heading (strip line)
     then [SetFont "B" 12; Cell 200 8 (strip line) ""; SetFont "" 12]
     else [MultiCell 0 8 (strip line)])
    ++ [Ln 2]
  else [].

(** The calls of [create_pdf(text, filename, title)] in order, when
    none raises. *)
Definition pdf_calls (text filename title : str) : list fpdf_call :=
  [AddPage; SetFont "" 12; SetFont "B" 16; Cell 200 10 title "C"; Ln 10;
   SetFont "" 12]
  ++ flat_map line_calls (split_lines text)
  ++ [Output filename].

End Renderer.
(** * Specifications *)

(** ** Frequencies and first occurrences in a token stream *)

(** How often [w] occurs in [words]. *)
Definition freq (w : str) (words : list str) : nat :=
  length (filter (str_eqb w) words).

(** The index of the first occurrence of [w] in [words] (their length
    when there is none). *)
Fixpoint first_index (w : str) (words : list str) : nat :=
  match words with
  | [] => 0
  | x :: xs => if str_eqb x w then 0 else S (first_index w xs)
  end.

(** [a] ranks before [b]: it is more frequent, or as frequent and seen
    first. *)
Definition ranks_before (words : list str) (a b : str) : Prop :=
  freq b words < freq a words \/
  (freq a words = freq b words /\ first_index a words < first_index b words).

(** [ranking] lists each distinct token of [words] once, in descending
    order of frequency, ties in order of first occurrence. *)
Definition is_ranking (words ranking : list str) : Prop :=
  NoDup ranking /\
  (forall w, In w ranking <-> In w words) /\
  StronglySorted (ranks_before words) ranking.


(** The order a stable descending sort by [key] gives to a list that
    was in the order [before]: larger keys first, and among equal keys
    the order [before]. *)
Definition desc_then (A : Type) (key : A -> nat) (before : A -> A -> Prop)
    (a b : A) : Prop :=
  key b < key a \/ (key a = key b /\ before a b).

(** [d] holds the counts of the token stream [p], its keys in order of
    first occurrence. *)
Definition counted (p : list str) (d : dict) : Prop :=
  NoDup (map fst d) /\
  (forall w, In w (map fst d) <-> In w p) /\
  (forall w, In w p -> dict_get d w 0 = freq w p) /\
  StronglySorted (fun a b => first_index a p < first_index b p) (map fst d).

(** [new] put in place of every occurrence of [old], the occurrences
    taken from the left and without overlap: either [old] does not
    occur, or the text is cut at its leftmost occurrence and the rest is
    treated likewise. *)
Inductive ReplacedAll (old new : str) : str -> str -> Prop :=
| RA_none (s : str) :
    (forall a b, s <> a ++ old ++ b) -> ReplacedAll old new s s
| RA_hit (pre rest rest' : str) :
    (forall a b, pre ++ old ++ rest = a ++ old ++ b -> length pre <= length a) ->
    ReplacedAll old new rest rest' ->
    ReplacedAll old new (pre ++ old ++ rest) (pre ++ new ++ rest').

(** [new] put in place of the first occurrence of [old] only. *)
Fixpoint replace_first (old new s : str) : str :=
  if starts_with old s then new ++ skipn (length old) s
  else match s with
       | [] => []
       | c :: s' => c :: replace_first old new s'
       end.

(** The least number of code points a match of the pattern consumes. *)
Fixpoint min_len (r : regex) : nat :=
  match r with
  | Empty => 0
  | Chr _ => 1
  | Seq r1 r2 => min_len r1 + min_len r2
  | Alt r1 r2 => Nat.min (min_len r1) (min_len r2)
  | Opt _ => 0
  | Rep _ least => least
  | Group _ r1 => min_len r1
  | WordBoundary => 0
  end.

(** The matcher has moved from [c] to [c'] over [consumed]. *)
Definition advanced (c c' : cursor) (consumed : str) : Prop :=
  c_rest c = consumed ++ c_rest c' /\ c_pos c' = c_pos c + length consumed.

Section RewriterSpec.
Context {U : UnicodeData}.

(** The score of an item: how many of the keywords it contains, case
    ignored. *)
Definition item_score (keywords : list str) (item : str) : nat :=
  length (filter (fun k => contains (str_lower k) (str_lower item)) keywords).

(** The items in descending order of score, ties in their original
    order. *)
Definition reorder (keywords items : list str) : list str :=
  sorted_desc (item_score keywords) items.

(** The banner block: an empty line, the "TAILORED FOR" line with the
    first five keywords, and a rule of 80 "=". *)
Definition tailored_banner (keywords : list str) (job_title company_name : str)
    : str :=
  [LF; LF] ++ lit "TAILORED FOR " ++ str_upper job_title ++ lit " AT "
    ++ str_upper company_name ++ lit ": "
    ++ join (lit ", ") (firstn 5 keywords) ++ [LF]
    ++ repeat 61%N 80 ++ [LF].

(** No section-header pattern matches in the text. *)
Definition headerless (text : str) : Prop :=
  forall pattern, In pattern skill_patterns -> finditer pattern text = [].

End RewriterSpec.

(** Every whitespace code point of [s] is a plain space, and no two
    whitespace code points are adjacent: the whitespace runs of [s] are
    single spaces. *)
Definition single_spaced (s : str) : Prop :=
  (forall c, In c s -> isspace c = true -> c = SPACE) /\
  (forall pre a b post,
      s = pre ++ a :: b :: post -> isspace a = true -> isspace b = true ->
      False).

(** Every bullet marker of [s] has a space immediately before it and
    immediately after it. *)
Definition bullets_spaced (s : str) : Prop :=
  forall pre post,
    s = pre ++ BULLET :: post ->
    (exists pre', pre = pre' ++ [SPACE]) /\
    (exists post', post = SPACE :: post').

(** The same, but for a bullet marker that is the first or the last
    code point of [s], which has nothing on that side. *)
Definition bullets_spaced_inside (s : str) : Prop :=
  forall pre post,
    s = pre ++ BULLET :: post ->
    (pre = [] \/ exists pre', pre = pre' ++ [SPACE]) /\
    (post = [] \/ exists post', post = SPACE :: post').

(** Each whitespace run replaced by one space, read off the text
    directly; [in_run] tells that the code point before was
    whitespace. *)
Fixpoint collapse (in_run : bool) (s : str) : str :=
  match s with
  | [] => []
  | c :: s' =>
      if isspace c
      then if in_run then collapse true s' else SPACE :: collapse true s'
      else c :: collapse false s'
  end.

(** The number of leading code points of [s] in the class [p]. *)
Fixpoint run_len (p : cp -> bool) (s : str) : nat :=
  match s with
  | c :: s' => if p c then S (run_len p s') else 0
  | [] => 0
  end.

(** The first match of a scan, if any, starts and ends at or after [q]. *)
Definition starts_from (q : nat) (ms : list re_match) : Prop :=
  match ms with
  | [] => True
  | m :: _ => q <= m_start m /\ q <= m_end m
  end.

Section NormalizerSpec.
Context {U : UnicodeData}.

(** The text after the whitespace runs are collapsed (line 67). *)
Definition collapsed (text : str) : str :=
  re_sub whitespace_run [SPACE]
    (str_replace [NUL] [] (str_replace [REPLACEMENT] [BULLET] text)).

(** The text after the bullets are spaced (line 68), before the trim. *)
Definition spaced (text : str) : str :=
  str_replace [BULLET] [SPACE; BULLET; SPACE] (collapsed text).

End NormalizerSpec.

(** A field of the request, trimmed. *)
Definition field (w : world) (name : string) : str :=
  strip (form_get (form w) (lit name)).

(** The external text generator failed: the call raised a transport
    error, or the response has a status other than 200. *)
Definition post_failed (o : post_outcome) : Prop :=
  match o with
  | PostRaised e => is_RequestException e = true
  | Responded status_code _ _ => status_code <> 200%Z
  end.

(** The artifacts of a request. *)
Definition resume_pdf_path (w : world) : str :=
  path_join [UPLOAD_FOLDER; resume_pdf_name (now w)].
Definition cover_pdf_path (w : world) : str :=
  path_join [UPLOAD_FOLDER; cover_pdf_name (now w)].
Definition zip_path (w : world) : str :=
  path_join [UPLOAD_FOLDER; zip_name (now w)].
Definition zip_members (w : world) : list (str * str) :=
  [(resume_pdf_path w, resume_pdf_name (now w));
   (cover_pdf_path w, cover_pdf_name (now w))].

(** A world for examples: the form given, the two templates given (or
    absent), a text generator that is not running, a renderer and an
    archiver that succeed. *)
Definition example_world (fields : list (string * string))
    (resume cover : option string) : world :=
  {| form := map (fun f => (lit (fst f), lit (snd f))) fields;
     files := fun path =>
       if str_eqb path resume_text_path
       then option_map (fun s => Ok (lit s)) resume
       else if str_eqb path cover_text_path
       then option_map (fun s => Ok (lit s)) cover
       else None;
     post := fun _ _ =>
       PostRaised {| exn_class_of := RequestException;
                     exn_str := lit "Connection refused" |};
     now := lit "20240101_120000";
     fpdf := fun _ _ _ => true;
     zip := fun _ _ => Ok tt |}.

(** The pieces of [s] between its maximal runs of code points of the
    class [p], read off the text directly; [in_run] tells that the
    code point before was in the class. *)
Fixpoint split_class (p : cp -> bool) (in_run : bool) (s : str) : list str :=
  match s with
  | [] => [[]]
  | c :: s' =>
      if p c
      then if in_run then split_class p true s'
           else [] :: split_class p true s'
      else match split_class p false s' with
           | piece :: pieces => (c :: piece) :: pieces
           | [] => []
           end
  end.

(** The class of [item_delimiters]. *)
Definition is_delimiter (c : cp) : bool :=
  (N.eqb c 44%N || N.eqb c 59%N || N.eqb c BULLET || N.eqb c LF)%bool.


(** What [process_job] answers when an [Exception] reaches its
    [except] branch after the calls [t]; anything else propagates. *)
Definition failed (e : exn) (t : list event) : result response * list event :=
  if is_Exception e
  then (Ok {| status := 500;
              body := Error (lit "Processing failed: " ++ exn_str e) |}, t)
  else (Raise e, t).

Section OrchestratorSpec.
Context {U : UnicodeData}.

(** The run of a request written out case by case: the response or the
    exception, and the calls made. *)
Definition process_job_direct (w : world) : result response * list event :=
  let job_title := field w "job_title" in
  let company_name := field w "company_name" in
  let job_description := field w "job_description" in
  if negb (all_nonempty [job_title; company_name; job_description]) then
    (Ok {| status := 400; body := Error (lit "All fields are required") |}, [])
  else
    match files w resume_text_path, files w cover_text_path with
    | None, _ =>
        (Ok {| status := 400;
               body := Error (lit "Resume template not found. Please upload a resume first.") |},
         [])
    | Some _, None =>
        (Ok {| status := 400;
               body := Error (lit "Cover letter template not found. Please upload a cover letter first.") |},
         [])
    | Some (Raise e), Some _ => failed e []
    | Some (Ok _), Some (Raise e) => failed e []
    | Some (Ok resume_text), Some (Ok cover_template) =>
        let keywords := extract_keywords job_description 10 in
        let ranked_and_polished :=
          [Ranked job_description; Polished resume_text keywords] in
        match polish_resume (PStr resume_text) (PList (map PStr keywords))
                (PStr job_title) (PStr company_name) with
        | Raise e => failed e ranked_and_polished
        | Ok polished =>
            let posted :=
              ranked_and_polished
                ++ [Posted OLLAMA_URL
                      (cover_payload resume_text cover_template job_title
                         company_name job_description)] in
            match generate_cover_with_ollama (post w) resume_text
                    cover_template job_title company_name job_description with
            | Raise e => failed e posted
            | Ok generated =>
                let resume_title := lit "Tailored Resume - " ++ job_title in
                let cover_title := lit "Cover Letter - " ++ job_title in
                let rendered :=
                  posted
                    ++ [Rendered polished (resume_pdf_path w) resume_title;
                        Rendered generated (cover_pdf_path w) cover_title] in
                let resume_success :=
                  match polished with
                  | PStr t => fpdf w t (resume_pdf_path w) resume_title
                  | _ => false
                  end in
                let cover_success :=
                  match generated with
                  | PStr t => fpdf w t (cover_pdf_path w) cover_title
                  | _ => false
                  end in
                if (negb resume_success || negb cover_success)%bool then
                  (Ok {| status := 500;
                         body := Error (lit "Failed to create PDF files") |},
                   rendered)
                else
                  let zipped :=
                    rendered ++ [Zipped (zip_path w) (zip_members w)] in
                  match zip w (zip_path w) (zip_members w) with
                  | Ok _ =>
                      (Ok {| status := 200;
                             body := Success (resume_pdf_path w)
                                       (cover_pdf_path w) (zip_path w)
                                       keywords |},
                       zipped)
                  | Raise e => failed e zipped
                  end
            end
        end
    end.

End OrchestratorSpec.

(** A world whose résumé template exists but cannot be read. *)
Definition unreadable_world : world :=
  {| form := [(lit "job_title", lit "Developer");
              (lit "company_name", lit "Acme");
              (lit "job_description", lit "Python developer")];
     files := fun path =>
       if str_eqb path resume_text_path
       then Some (Raise {| exn_class_of := OtherException;
                           exn_str := lit "Permission denied" |})
       else Some (Ok (lit "Dear team"));
     post := fun _ _ => Responded 200 [] (Ok (PDict []));
     now := lit "20240101_120000";
     fpdf := fun _ _ _ => true;
     zip := fun _ _ => Ok tt |}.

(** A world whose text generator answers. *)
Definition online_world : world :=
  {| form := [(lit "job_title", lit "Developer");
              (lit "company_name", lit "Acme");
              (lit "job_description", lit "Python developer")];
     files := fun path =>
       if str_eqb path resume_text_path then Some (Ok (lit "SKILLS: Java"))
       else if str_eqb path cover_text_path then Some (Ok (lit "Dear team"))
       else None;
     post := fun _ _ =>
       Responded 200 (lit "{}")
         (Ok (PDict [(lit "response", PStr (lit "Dear Acme Team,"))]));
     now := lit "20240101_120000";
     fpdf := fun _ _ _ => true;
     zip := fun _ _ => Ok tt |}.

(** No file was sent under a name of the form, or it has no file
    name. *)
Definition no_file (file : option upload) : Prop :=
  match file with
  | None => True
  | Some f => filename f = []
  end.


(** An upload folder with nothing in it. *)
Definition empty_store : store := {| pdfs := []; texts := fun _ => None |}.

(** An upload request for examples: the files given, on a disk that
    takes every write. *)
Definition example_request (resume cover : option upload) : upload_request :=
  {| resume_file := resume; cover_file := cover;
     save_pdf := fun _ => Ok tt;
     write_text := fun _ _ => Ok tt |}.

Definition resume_upload : upload :=
  {| filename := lit "cv.PDF";
     pages := Ok [lit "SKILLS: Java,   Python"; lit "Hobbies"] |}.
Definition cover_upload : upload :=
  {| filename := lit "letter.pdf"; pages := Ok [lit "Dear team"] |}.
Definition script_upload : upload :=
  {| filename := lit "cv.pdf.exe"; pages := Ok [] |}.

(** No code point test of the pattern accepts [x]. *)
Fixpoint never_matches (x : cp) (r : regex) : bool :=
  match r with
  | Empty | WordBoundary => true
  | Chr p | Rep p _ => negb (p x)
  | Seq r1 r2 | Alt r1 r2 => never_matches x r1 && never_matches x r2
  | Opt r1 | Group _ r1 => never_matches x r1
  end.

(** No group of the pattern can capture [x]. *)
Fixpoint groups_exclude (x : cp) (r : regex) : bool :=
  match r with
  | Empty | WordBoundary | Chr _ | Rep _ _ => true
  | Seq r1 r2 | Alt r1 r2 => groups_exclude x r1 && groups_exclude x r2
  | Opt r1 => groups_exclude x r1
  | Group _ r1 => never_matches x r1 && groups_exclude x r1
  end.

(** No captured text holds [x]. *)
Definition groups_without (x : cp) (gs : list (nat * str)) : Prop :=
  Forall (fun g => ~ In x (snd g)) gs.
(** * Properties *)

(** ** Strings *)

Lemma str_eqb_eq (a b : str) : str_eqb a b = true <-> a = b.
Proof.
  revert b; induction a as [|x a IH]; intros [|y b]; simpl;
    try (split; [discriminate | discriminate ]); try tauto.
  rewrite andb_true_iff, N.eqb_eq, IH.
  split; [intros [-> ->]; reflexivity | intros E; injection E; auto].
Qed.

Lemma str_eqb_refl (a : str) : str_eqb a a = true.
Proof. apply str_eqb_eq; reflexivity. Qed.

Lemma str_eqb_neq (a b : str) : str_eqb a b = false <-> a <> b.
Proof.
  rewrite <- str_eqb_eq. destruct (str_eqb a b); split; congruence.
Qed.

Lemma str_eqb_sym (a b : str) : str_eqb a b = str_eqb b a.
Proof.
  destruct (str_eqb b a) eqn:E.
  - apply str_eqb_eq in E; subst; apply str_eqb_refl.
  - apply str_eqb_neq in E. apply str_eqb_neq; congruence.
Qed.

Lemma freq_app w p q : freq w (p ++ q) = freq w p + freq w q.
Proof. unfold freq. rewrite filter_app, length_app. reflexivity. Qed.

Lemma freq_pos w words : In w words <-> 0 < freq w words.
Proof.
  unfold freq. induction words as [|x xs IH]; simpl.
  - split; [tauto | lia].
  - destruct (str_eqb w x) eqn:E; simpl.
    + apply str_eqb_eq in E. subst. split; [lia | auto].
    + apply str_eqb_neq in E. rewrite <- IH. split; [|tauto].
      intros [H|H]; [congruence | exact H].
Qed.

Lemma first_index_lt w words : In w words -> first_index w words < length words.
Proof.
  induction words as [|x xs IH]; simpl; [tauto|].
  destruct (str_eqb x w) eqn:E; [lia|].
  apply str_eqb_neq in E. intros [H|H]; [congruence|]. apply IH in H. lia.
Qed.

Lemma first_index_app_in w p q :
  In w p -> first_index w (p ++ q) = first_index w p.
Proof.
  induction p as [|x xs IH]; simpl; [tauto|].
  destruct (str_eqb x w) eqn:E; [reflexivity|].
  apply str_eqb_neq in E. intros [H|H]; [congruence|]. rewrite IH; auto.
Qed.

Lemma first_index_app_new w p q :
  ~ In w p -> first_index w (p ++ q) = length p + first_index w q.
Proof.
  induction p as [|x xs IH]; simpl; [reflexivity|].
  intros H. destruct (str_eqb x w) eqn:E.
  - apply str_eqb_eq in E. tauto.
  - rewrite IH; tauto.
Qed.

Lemma first_index_inj a b words :
  In a words -> first_index a words = first_index b words -> a = b.
Proof.
  induction words as [|x xs IH]; simpl; [tauto|].
  destruct (str_eqb x a) eqn:Ea, (str_eqb x b) eqn:Eb; intros H E;
    try discriminate.
  - apply str_eqb_eq in Ea, Eb. congruence.
  - apply str_eqb_neq in Ea. apply IH; [|lia].
    destruct H; [congruence | assumption].
Qed.

(** ** Strongly sorted lists *)

Section SortedFacts.
Variables A B : Type.

Lemma StronglySorted_impl_in (R R' : A -> A -> Prop) (l : list A) :
  (forall a b, In a l -> In b l -> R a b -> R' a b) ->
  StronglySorted R l -> StronglySorted R' l.
Proof.
  induction l as [|x l IH]; intros H S; constructor;
    apply StronglySorted_inv in S; destruct S as [S F].
  - apply IH; [|exact S]. intros a b Ha Hb. apply H; simpl; auto.
  - rewrite Forall_forall in *. intros b Hb.
    apply H; simpl; auto.
Qed.

Lemma StronglySorted_map (f : A -> B) (R : B -> B -> Prop) (l : list A) :
  StronglySorted R (map f l) <->
  StronglySorted (fun a b => R (f a) (f b)) l.
Proof.
  induction l as [|x l IH]; simpl.
  - split; constructor.
  - split; intros S; apply StronglySorted_inv in S; destruct S as [S F];
      constructor; try (apply IH; exact S).
    + rewrite Forall_forall in *. intros b Hb. apply F, in_map, Hb.
    + rewrite Forall_forall in *. intros b Hb.
      apply in_map_iff in Hb. destruct Hb as [a [<- Ha]]. auto.
Qed.

Lemma StronglySorted_snoc (R : A -> A -> Prop) (l : list A) (x : A) :
  StronglySorted R l -> Forall (fun a => R a x) l ->
  StronglySorted R (l ++ [x]).
Proof.
  induction l as [|y l IH]; simpl; intros S F.
  - repeat constructor.
  - apply StronglySorted_inv in S. destruct S as [S Fy].
    inversion F; subst. constructor; [apply IH; assumption|].
    apply Forall_app; split; [assumption | repeat constructor; assumption].
Qed.

Lemma StronglySorted_firstn (R : A -> A -> Prop) (n : nat) (l : list A) :
  StronglySorted R l -> StronglySorted R (firstn n l).
Proof.
  revert n; induction l as [|x l IH]; intros [|n] S; simpl; try constructor.
  - apply IH. apply StronglySorted_inv in S. tauto.
  - apply StronglySorted_inv in S. destruct S as [_ F].
    rewrite Forall_forall in *. intros b Hb. apply F.
    rewrite <- (firstn_skipn n l). apply in_or_app; auto.
Qed.

End SortedFacts.

(** ** The stable descending sort *)

Section SortingFacts.
Variable A : Type.
Variable key : A -> nat.

Lemma insert_desc_perm (x : A) (l : list A) :
  Permutation (x :: l) (insert_desc key x l).
Proof.
  induction l as [|y l IH]; simpl; [reflexivity|].
  destruct (key x <? key y); [|reflexivity].
  rewrite perm_swap. apply perm_skip, IH.
Qed.

Lemma sorted_desc_perm (l : list A) : Permutation l (sorted_desc key l).
Proof.
  induction l as [|x l IH]; simpl; [reflexivity|].
  rewrite <- insert_desc_perm. apply perm_skip, IH.
Qed.

Variable before : A -> A -> Prop.

Lemma insert_desc_sorted (x : A) (l : list A) :
  StronglySorted (desc_then key before) l -> Forall (before x) l ->
  StronglySorted (desc_then key before) (insert_desc key x l).
Proof.
  induction l as [|y l IH]; simpl; intros S F.
  - repeat constructor.
  - pose proof (StronglySorted_inv S) as [S' Fy].
    inversion F as [|? ? Bxy Bx]; subst.
    destruct (key x <? key y) eqn:E.
    + apply Nat.ltb_lt in E. constructor; [apply IH; assumption|].
      apply (Permutation_Forall (insert_desc_perm x l)).
      constructor; [left; exact E | exact Fy].
    + apply Nat.ltb_ge in E. constructor; [exact S|].
      assert (Hle : Forall (fun z => key z <= key x) (y :: l)).
      { constructor; [exact E|]. rewrite Forall_forall in *.
        intros z Hz. destruct (Fy z Hz) as [H|[H _]]; lia. }
      rewrite Forall_forall in *. intros z Hz.
      specialize (Hle z Hz). specialize (F z Hz).
      destruct (Nat.eq_dec (key x) (key z));
        [right; split; assumption | left; lia].
Qed.

Lemma sorted_desc_sorted (l : list A) :
  StronglySorted before l ->
  StronglySorted (desc_then key before) (sorted_desc key l).
Proof.
  induction l as [|x l IH]; simpl; intros S; [constructor|].
  apply StronglySorted_inv in S. destruct S as [S F].
  apply insert_desc_sorted; [apply IH, S|].
  apply (Permutation_Forall (sorted_desc_perm l)), F.
Qed.

End SortingFacts.

(** ** The dictionary of counts *)

Lemma dict_get_set (d : dict) (k k' : str) (v default : nat) :
  dict_get (dict_set d k v) k' default =
  if str_eqb k k' then v else dict_get d k' default.
Proof.
  induction d as [|[x n] d IH]; simpl.
  - destruct (str_eqb k k'); reflexivity.
  - destruct (str_eqb x k) eqn:E; simpl.
    + apply str_eqb_eq in E. subst x. destruct (str_eqb k k'); reflexivity.
    + rewrite IH. destruct (str_eqb x k') eqn:E'; [|reflexivity].
      apply str_eqb_eq in E'. subst x. rewrite str_eqb_sym, E. reflexivity.
Qed.

Lemma dict_set_keys_old (d : dict) (k : str) (v : nat) :
  In k (map fst d) -> map fst (dict_set d k v) = map fst d.
Proof.
  induction d as [|[x n] d IH]; simpl; [tauto|].
  destruct (str_eqb x k) eqn:E; simpl; [reflexivity|].
  apply str_eqb_neq in E. intros [H|H]; [congruence|]. rewrite IH; auto.
Qed.

Lemma dict_set_keys_new (d : dict) (k : str) (v : nat) :
  ~ In k (map fst d) -> map fst (dict_set d k v) = map fst d ++ [k].
Proof.
  induction d as [|[x n] d IH]; simpl; [reflexivity|].
  intros H. destruct (str_eqb x k) eqn:E.
  - apply str_eqb_eq in E. tauto.
  - simpl. rewrite IH; tauto.
Qed.

Lemma dict_get_in (d : dict) (w : str) (n default : nat) :
  NoDup (map fst d) -> In (w, n) d -> dict_get d w default = n.
Proof.
  induction d as [|[x m] d IH]; simpl; [tauto|].
  intros ND H. inversion ND as [|? ? Hx ND']; subst.
  destruct (str_eqb x w) eqn:E.
  - apply str_eqb_eq in E. subst x. destruct H as [H|H]; [congruence|].
    exfalso. apply Hx. change w with (fst (w, n)). apply in_map, H.
  - apply str_eqb_neq in E. destruct H as [H|H]; [congruence|]. auto.
Qed.

Lemma counted_step (p : list str) (d : dict) (w : str) :
  counted p d -> counted (p ++ [w]) (dict_set d w (dict_get d w 0 + 1)).
Proof.
  intros (ND & Keys & Get & Ord).
  assert (Hfreq : forall x, freq x (p ++ [w]) =
                            freq x p + if str_eqb w x then 1 else 0).
  { intros x. rewrite freq_app. unfold freq at 2. simpl.
    rewrite (str_eqb_sym x w). destruct (str_eqb w x); reflexivity. }
  assert (Hmono : StronglySorted
            (fun a b => first_index a (p ++ [w]) < first_index b (p ++ [w]))
            (map fst d)).
  { revert Ord. apply StronglySorted_impl_in. intros a b Ha Hb.
    rewrite !first_index_app_in by (apply Keys; assumption). auto. }
  destruct (in_dec (list_eq_dec N.eq_dec) w (map fst d)) as [Hin|Hnew].
  - rewrite (Get w) by (apply Keys, Hin).
    repeat split.
    + rewrite dict_set_keys_old by exact Hin. exact ND.
    + rewrite dict_set_keys_old by exact Hin. intros H.
      apply in_or_app. left. apply Keys, H.
    + rewrite dict_set_keys_old by exact Hin. intros H.
      apply in_app_or in H. destruct H as [H|[<-|[]]];
        [apply Keys, H | exact Hin].
    + intros x Hx. rewrite dict_get_set, Hfreq.
      destruct (str_eqb w x) eqn:E.
      * apply str_eqb_eq in E. subst x. reflexivity.
      * rewrite Get; [lia|]. apply in_app_or in Hx.
        destruct Hx as [Hx|[<-|[]]]; [exact Hx | apply Keys, Hin].
    + rewrite dict_set_keys_old by exact Hin. exact Hmono.
  - assert (Hp : ~ In w p) by (intros H; apply Hnew, Keys, H).
    repeat split.
    + rewrite dict_set_keys_new by exact Hnew.
      apply NoDup_app; repeat split; try assumption.
      * repeat constructor. simpl. tauto.
      * intros x Hx [<-|[]]. tauto.
    + rewrite dict_set_keys_new by exact Hnew. intros H.
      apply in_app_or in H. apply in_or_app.
      destruct H as [H|H]; [left; apply Keys, H | right; exact H].
    + rewrite dict_set_keys_new by exact Hnew. intros H.
      apply in_app_or in H. apply in_or_app.
      destruct H as [H|H]; [left; apply Keys, H | right; exact H].
    + intros x Hx. rewrite dict_get_set, Hfreq.
      destruct (str_eqb w x) eqn:E.
      * apply str_eqb_eq in E. subst x.
        assert (F0 : freq w p = 0).
        { destruct (freq w p) eqn:F; [reflexivity|]. exfalso.
          apply Hp, freq_pos. lia. }
        rewrite F0. clear - Hnew. f_equal.
        induction d as [|[y m] d IH]; simpl in *; [reflexivity|].
        destruct (str_eqb y w) eqn:E; [apply str_eqb_eq in E; tauto|].
        apply IH. tauto.
      * apply str_eqb_neq in E. rewrite Get; [lia|].
        apply in_app_or in Hx. destruct Hx as [Hx|[Hx|[]]];
          [exact Hx | congruence].
    + rewrite dict_set_keys_new by exact Hnew.
      apply StronglySorted_snoc; [exact Hmono|].
      rewrite Forall_forall. intros a Ha.
      rewrite first_index_app_in by (apply Keys, Ha).
      rewrite first_index_app_new by exact Hp. simpl.
      rewrite str_eqb_refl. apply Keys, first_index_lt in Ha. lia.
Qed.

Lemma count_words_counted (words : list str) : counted words (count_words words).
Proof.
  unfold count_words. induction words as [|w p IH] using rev_ind.
  - simpl. repeat split; simpl; try tauto; constructor.
  - rewrite fold_left_app. simpl. apply counted_step, IH.
Qed.

(** ** [str.replace] *)

Lemma starts_with_iff (p s : str) :
  starts_with p s = true <-> exists r, s = p ++ r.
Proof.
  revert s; induction p as [|a p IH]; intros s; simpl.
  - split; [intros _; exists s; reflexivity | reflexivity].
  - destruct s as [|b s].
    + split; [discriminate | intros [r E]; discriminate].
    + rewrite andb_true_iff, N.eqb_eq, IH. split.
      * intros [-> [r ->]]. exists r. reflexivity.
      * intros [r E]. injection E as -> ->. split; [reflexivity | eauto].
Qed.

Lemma starts_with_app (p r : str) : starts_with p (p ++ r) = true.
Proof. apply starts_with_iff. exists r. reflexivity. Qed.

Lemma replace_scan_skip (old new : str) (k : nat) (s : str) :
  replace_scan old new k s = replace_scan old new 0 (skipn k s).
Proof.
  revert k; induction s as [|c s IH]; intros [|k]; try reflexivity.
  simpl skipn. rewrite <- IH. reflexivity.
Qed.

Lemma replace_scan_hit (old new rest : str) :
  old <> [] ->
  replace_scan old new 0 (old ++ rest) = new ++ replace_scan old new 0 rest.
Proof.
  destruct old as [|o old']; [congruence|]. intros _.
  change ((o :: old') ++ rest) with (o :: old' ++ rest).
  unfold replace_scan at 1; fold replace_scan.
  change (o :: old' ++ rest) with ((o :: old') ++ rest).
  rewrite starts_with_app. f_equal.
  rewrite replace_scan_skip.
  replace (length (o :: old') - 1) with (length old') by (simpl; lia).
  rewrite skipn_app, skipn_all, Nat.sub_diag. reflexivity.
Qed.

Lemma replace_scan_miss (old new : str) (c : cp) (s : str) :
  starts_with old (c :: s) = false ->
  replace_scan old new 0 (c :: s) = c :: replace_scan old new 0 s.
Proof.
  intros H. unfold replace_scan at 1; fold replace_scan.
  rewrite H. reflexivity.
Qed.

Lemma ReplacedAll_cons (old new : str) (c : cp) (s t : str) :
  starts_with old (c :: s) = false ->
  ReplacedAll old new s t -> ReplacedAll old new (c :: s) (c :: t).
Proof.
  intros Hs H. inversion H as [s0 Hno E1 E2 | pre rest rest' Hleft Hrest E1 E2];
    subst.
  - apply RA_none. intros [|a0 a] b E.
    + assert (starts_with old (c :: t) = true)
        by (apply starts_with_iff; exists b; exact E).
      congruence.
    + injection E as _ E. apply (Hno a b E).
  - apply (@RA_hit old new (c :: pre) rest rest'); [|exact Hrest].
    intros [|a0 a] b E.
    + assert (starts_with old (c :: pre ++ old ++ rest) = true)
        by (apply starts_with_iff; exists b; exact E).
      congruence.
    + injection E as _ E. simpl. apply le_n_S, (Hleft a b E).
Qed.

Lemma replace_scan_spec (old new : str) :
  old <> [] ->
  forall n s, length s <= n -> ReplacedAll old new s (replace_scan old new 0 s).
Proof.
  intros Hold. induction n as [|n IH]; intros s Hn.
  - destruct s; [|simpl in Hn; lia]. apply RA_none.
    intros a b E. symmetry in E. apply app_eq_nil in E. destruct E as [_ E].
    apply app_eq_nil in E. tauto.
  - destruct (starts_with old s) eqn:Hs.
    + apply starts_with_iff in Hs. destruct Hs as [rest ->].
      rewrite replace_scan_hit by exact Hold.
      apply (@RA_hit old new [] rest); [intros; simpl; lia|].
      apply IH. rewrite length_app in Hn.
      destruct old; [congruence | simpl in Hn; lia].
    + destruct s as [|c s].
      * apply RA_none. intros a b E. symmetry in E.
        apply app_eq_nil in E. destruct E as [_ E].
        apply app_eq_nil in E. tauto.
      * rewrite replace_scan_miss by exact Hs.
        apply ReplacedAll_cons; [exact Hs|]. apply IH. simpl in Hn. lia.
Qed.

(** [s.replace(old, new)] replaces every occurrence of a non-empty
    [old]. *)
Lemma str_replace_spec (old new s : str) :
  old <> [] -> ReplacedAll old new s (str_replace old new s).
Proof.
  intros H. unfold str_replace. destruct old as [|o old']; [congruence|].
  apply (replace_scan_spec new H (n := length s)). lia.
Qed.

(** Replacing a single code point by a text is a [flat_map]. *)
Lemma str_replace_char (c : cp) (new s : str) :
  str_replace [c] new s =
  flat_map (fun x => if N.eqb c x then new else [x]) s.
Proof.
  unfold str_replace. induction s as [|x s IH]; [reflexivity|].
  unfold replace_scan; fold replace_scan. simpl starts_with.
  simpl length. simpl flat_map.
  destruct (N.eqb c x); simpl; rewrite IH; reflexivity.
Qed.

(** ** The matcher *)

Lemma advanced_trans (c1 c2 c3 : cursor) (s1 s2 : str) :
  advanced c1 c2 s1 -> advanced c2 c3 s2 -> advanced c1 c3 (s1 ++ s2).
Proof.
  intros [R1 P1] [R2 P2]. split.
  - rewrite R1, R2, app_assoc. reflexivity.
  - rewrite P2, P1, length_app. lia.
Qed.

Lemma rep_advances (p : cp -> bool) (k : cursor -> option cursor)
    (groups : list (nat * str)) (rest : str) :
  forall (least : nat) (left : option cp) (pos : nat) (c' : cursor),
    rep p least k left pos groups rest = Some c' ->
    exists c'' consumed,
      advanced {| c_left := left; c_pos := pos; c_rest := rest;
                  c_groups := groups |} c'' consumed /\
      least <= length consumed /\ k c'' = Some c'.
Proof.
  induction rest as [|x rest IH]; intros least left pos c' H.
  - simpl in H. destruct least; [|discriminate].
    exists {| c_left := left; c_pos := pos; c_rest := [];
              c_groups := groups |}, []. split; [split; simpl; [reflexivity | lia]|].
    split; [simpl; lia | exact H].
  - assert (Stop : (match least with
                    | O => k {| c_left := left; c_pos := pos;
                                c_rest := x :: rest; c_groups := groups |}
                    | S _ => None
                    end) = Some c' ->
                   exists c'' consumed,
                     advanced {| c_left := left; c_pos := pos;
                                 c_rest := x :: rest; c_groups := groups |}
                              c'' consumed /\
                     least <= length consumed /\ k c'' = Some c').
    { intros E. destruct least; [|discriminate].
      exists {| c_left := left; c_pos := pos; c_rest := x :: rest;
                c_groups := groups |}, []. split; [split; simpl; [reflexivity | lia]|].
      split; [simpl; lia | exact E]. }
    simpl in H. destruct (p x); [|apply Stop, H].
    destruct (rep p (pred least) k (Some x) (S pos) groups rest) as [c0|] eqn:E;
      [|apply Stop, H].
    injection H as ->. apply IH in E.
    destruct E as (c'' & consumed & [R P] & L & K). simpl in R, P.
    exists c'', (x :: consumed). split; [split; simpl|].
    + rewrite R. reflexivity.
    + rewrite P. lia.
    + split; [simpl; lia | exact K].
Qed.

Section RegexFacts.
Context {U : UnicodeData}.

(** A successful run moves the cursor forward over at least [min_len]
    code points and hands it to the continuation. *)
Lemma run_advances (r : regex) :
  forall (k : cursor -> option cursor) (c c' : cursor),
    run r k c = Some c' ->
    exists c'' consumed,
      advanced c c'' consumed /\ min_len r <= length consumed /\
      k c'' = Some c'.
Proof.
  induction r as [|p|r1 IH1 r2 IH2|r1 IH1 r2 IH2|r1 IH1|p least|n r1 IH1|];
    intros k c c' H; simpl in H.
  - exists c, []. split; [split; simpl; [reflexivity | lia]|].
    split; [simpl; lia | exact H].
  - destruct (c_rest c) as [|x rest] eqn:E; [discriminate|].
    destruct (p x); [|discriminate].
    exists (advance c x rest), [x].
    split; [split; simpl; [exact E | lia]|]. split; [simpl; lia | exact H].
  - apply IH1 in H. destruct H as (c1 & s1 & A1 & L1 & H).
    apply IH2 in H. destruct H as (c2 & s2 & A2 & L2 & H).
    exists c2, (s1 ++ s2). split; [eapply advanced_trans; eassumption|].
    split; [simpl; rewrite length_app; lia | exact H].
  - destruct (run r1 k c) as [c0|] eqn:E.
    + injection H as ->. apply IH1 in E.
      destruct E as (c1 & s1 & A1 & L1 & K). exists c1, s1.
      split; [exact A1|]. split; [simpl; lia | exact K].
    + apply IH2 in H. destruct H as (c2 & s2 & A2 & L2 & K). exists c2, s2.
      split; [exact A2|]. split; [simpl; lia | exact K].
  - destruct (run r1 k c) as [c0|] eqn:E.
    + injection H as ->. apply IH1 in E.
      destruct E as (c1 & s1 & A1 & L1 & K). exists c1, s1.
      split; [exact A1|]. split; [simpl; lia | exact K].
    + exists c, []. split; [split; simpl; [reflexivity | lia]|].
      split; [simpl; lia | exact H].
  - apply rep_advances in H. destruct c. exact H.
  - apply IH1 in H. destruct H as (c1 & s1 & [R P] & L1 & K).
    exists (close_group n c c1), s1.
    split; [split; simpl; assumption|]. split; [simpl; lia | exact K].
  - destruct (xorb _ _); [|discriminate].
    exists c, []. split; [split; simpl; [reflexivity | lia]|].
    split; [simpl; lia | exact H].
Qed.

(** The span of a match is the text the matcher consumed. *)
Lemma match_here_span (r : regex) (left : option cp) (pos : nat)
    (rest : str) (m : re_match) :
  match_here r left pos rest = Some m ->
  exists after,
    rest = m_span m ++ after /\ min_len r <= length (m_span m) /\
    m_start m = pos /\ m_end m = pos + length (m_span m).
Proof.
  unfold match_here. intros H.
  destruct (run r Some _) as [c|] eqn:E; [|discriminate].
  injection H as <-. apply run_advances in E.
  destruct E as (c'' & consumed & [R P] & L & K). injection K as ->.
  simpl in R, P. simpl. exists (c_rest c).
  assert (F : firstn (c_pos c - pos) rest = consumed).
  { rewrite P, R. replace (pos + length consumed - pos) with (length consumed)
      by lia.
    rewrite firstn_app, firstn_all, Nat.sub_diag. simpl.
    apply app_nil_r. }
  rewrite F. repeat split; [exact R | exact L | exact P].
Qed.

Lemma scan_in (r : regex) (m : re_match) (s : str) :
  forall (left : option cp) (pos skip : nat),
    In m (scan r left pos skip s) ->
    exists left' pos' rest', match_here r left' pos' rest' = Some m.
Proof.
  induction s as [|x s IH]; intros left pos skip H; simpl in H; [tauto|].
  destruct skip as [|n]; [|eapply IH, H].
  destruct (match_here r left pos (x :: s)) as [m0|] eqn:E; [|eapply IH, H].
  destruct H as [->|H]; [eauto | eapply IH, H].
Qed.

(** A match of a pattern that cannot match the empty string has a
    non-empty span. *)
Lemma finditer_span_nonempty (r : regex) (s : str) (m : re_match) :
  0 < min_len r -> In m (finditer r s) -> m_span m <> [].
Proof.
  intros Hr H. apply scan_in in H. destruct H as (left & pos & rest & H).
  apply match_here_span in H. destruct H as (after & _ & L & _).
  intros E. rewrite E in L. simpl in L. lia.
Qed.

End RegexFacts.

(** ** Loops and exceptions *)

Lemma for_each_raises (A B : Type) (P : exn -> Prop)
    (step : B -> A -> result B) (xs : list A) :
  (forall acc x e, step acc x = Raise e -> P e) ->
  forall acc e, for_each step xs acc = Raise e -> P e.
Proof.
  intros Hstep. induction xs as [|x xs IH]; intros acc e H; simpl in H.
  - discriminate.
  - destruct (step acc x) as [acc'|e'] eqn:E; simpl in H.
    + eapply IH, H.
    + injection H as <-. eapply Hstep, E.
Qed.

Lemma for_each_fixed (A B : Type) (step : B -> A -> result B) (xs : list A)
    (acc : B) :
  (forall x, In x xs -> step acc x = Ok acc) -> for_each step xs acc = Ok acc.
Proof.
  induction xs as [|x xs IH]; intros H; simpl; [reflexivity|].
  rewrite H by (simpl; auto). simpl. apply IH. intros y Hy. apply H.
  simpl; auto.
Qed.

(** ** The stable sort and maps *)

Lemma insert_desc_map (A B : Type) (key : B -> nat) (g : A -> B) (x : A)
    (l : list A) :
  insert_desc key (g x) (map g l) =
  map g (insert_desc (fun a => key (g a)) x l).
Proof.
  induction l as [|y l IH]; simpl; [reflexivity|].
  destruct (key (g x) <? key (g y)); simpl; [rewrite IH|]; reflexivity.
Qed.

Lemma sorted_desc_map (A B : Type) (key : B -> nat) (g : A -> B) (l : list A) :
  sorted_desc key (map g l) = map g (sorted_desc (fun a => key (g a)) l).
Proof.
  induction l as [|x l IH]; simpl; [reflexivity|].
  rewrite IH. apply insert_desc_map.
Qed.

(** ** Section rewriter on keywords that are strings *)

Section RewriterFacts.
Context {U : UnicodeData}.

Lemma score_item_str (keywords : list str) (item : str) :
  score_item (PList (map PStr keywords)) item = Ok (item_score keywords item).
Proof.
  unfold score_item, item_score. simpl.
  assert (H : forall ks acc,
             for_each (fun score keyword =>
                         k <- lower_of keyword ;;
                         Ok (if contains k (str_lower item)
                             then score + 1 else score))
                      (map PStr ks) acc
             = Ok (acc + length (filter (fun k => contains (str_lower k)
                                                    (str_lower item)) ks))).
  { induction ks as [|k ks IH]; intros acc; simpl.
    - f_equal. lia.
    - destruct (contains (str_lower k) (str_lower item)); simpl;
        rewrite IH; f_equal; lia. }
  apply H.
Qed.

Lemma score_items_str (keywords items : list str) :
  score_items (PList (map PStr keywords)) items =
  Ok (map (fun item => (item, item_score keywords item)) items).
Proof.
  unfold score_items.
  assert (H : forall l acc,
             for_each (fun scored_items item =>
                         score <- score_item (PList (map PStr keywords)) item ;;
                         Ok (scored_items ++ [(item, score)]))
                      l acc
             = Ok (acc ++ map (fun item => (item, item_score keywords item)) l)).
  { induction l as [|item l IH]; intros acc; simpl.
    - rewrite app_nil_r. reflexivity.
    - rewrite score_item_str. simpl. rewrite IH, <- app_assoc. reflexivity. }
  apply H.
Qed.

(** The section the rewriter writes for a match, and where. *)
Lemma rewrite_section_str (keywords : list str) (polished_text : str)
    (m : re_match) :
  rewrite_section (PList (map PStr keywords)) polished_text m =
  Ok (match split_items (group m 2) with
      | [] => polished_text
      | _ :: _ =>
          str_replace (group m 0)
            (group m 1 ++ lit ": "
               ++ join (lit ", ") (reorder keywords (split_items (group m 2))))
            polished_text
      end).
Proof.
  assert (S : forall l,
             map fst (sorted_desc snd
                        (map (fun item => (item, item_score keywords item)) l))
             = reorder keywords l).
  { intros l. rewrite (sorted_desc_map snd), map_map. simpl.
    rewrite map_id. reflexivity. }
  unfold rewrite_section.
  destruct (split_items (group m 2)) as [|item items] eqn:E; [reflexivity|].
  rewrite score_items_str. unfold bind. rewrite S. reflexivity.
Qed.

Lemma top_keywords_str_str (keywords : list str) :
  top_keywords_str (PList (map PStr keywords)) =
  Ok (join (lit ", ") (firstn 5 keywords)).
Proof.
  unfold top_keywords_str. rewrite firstn_map.
  assert (H : forall l acc,
             for_each (fun acc v =>
                         match v with
                         | PStr s => Ok (acc ++ [s])
                         | _ => Raise (type_error v "is not a str")
                         end) (map PStr l) acc = Ok (acc ++ l)).
  { induction l as [|x l IH]; intros acc; simpl.
    - rewrite app_nil_r. reflexivity.
    - rewrite IH, <- app_assoc. reflexivity. }
  rewrite H. reflexivity.
Qed.

Lemma rewrite_pattern_no_match (keywords : pyval) (text : str)
    (pattern : regex) :
  finditer pattern text = [] -> rewrite_pattern keywords text pattern = Ok text.
Proof. intros H. unfold rewrite_pattern. rewrite H. reflexivity. Qed.

(** On strings, the rewriter returns the banner followed by the text
    the loops over the patterns leave. *)
Lemma polish_resume_str (text : str) (keywords : list str)
    (job_title company_name polished_text : str) :
  for_each (rewrite_pattern (PList (map PStr keywords))) skill_patterns text
    = Ok polished_text ->
  polish_resume (PStr text) (PList (map PStr keywords)) (PStr job_title)
    (PStr company_name)
  = Ok (PStr (tailored_banner keywords job_title company_name
                ++ polished_text)).
Proof.
  intros H. unfold polish_resume, polish_resume_body.
  rewrite H, top_keywords_str_str. unfold bind, upper_of. cbv beta iota.
  unfold tailored_banner. repeat rewrite <- app_assoc. reflexivity.
Qed.

(** Every exception the body of [polish_resume] raises is an
    [Exception]. *)
Lemma polish_resume_body_raises (resume_text keywords job_title company_name
    : pyval) (e : exn) :
  polish_resume_body resume_text keywords job_title company_name = Raise e ->
  is_Exception e = true.
Proof.
  assert (Hiter : forall v e, iterate v = Raise e -> is_Exception e = true).
  { intros [] e0 H; simpl in H; try discriminate; injection H as <-;
      reflexivity. }
  assert (Hlow : forall v e, lower_of v = Raise e -> is_Exception e = true).
  { intros [] e0 H; simpl in H; try discriminate; injection H as <-;
      reflexivity. }
  assert (Hup : forall v e, upper_of v = Raise e -> is_Exception e = true).
  { intros [] e0 H; simpl in H; try discriminate; injection H as <-;
      reflexivity. }
  assert (Hscore : forall item e,
             score_item keywords item = Raise e -> is_Exception e = true).
  { intros item e0 H. unfold score_item in H.
    destruct (iterate keywords) as [ks|e1] eqn:E; simpl in H.
    - revert H. apply (for_each_raises (fun e => is_Exception e = true)). intros acc x e1 H1.
      destruct (lower_of x) as [k|e2] eqn:E2; simpl in H1; [discriminate|].
      injection H1 as <-. eapply Hlow, E2.
    - injection H as <-. eapply Hiter, E. }
  assert (Hitems : forall items e,
             score_items keywords items = Raise e -> is_Exception e = true).
  { intros items e0. apply (for_each_raises (fun e => is_Exception e = true)). intros acc x e1 H1.
    destruct (score_item keywords x) as [n|e2] eqn:E2; simpl in H1;
      [discriminate|].
    injection H1 as <-. eapply Hscore, E2. }
  assert (Hsect : forall text m e,
             rewrite_section keywords text m = Raise e ->
             is_Exception e = true).
  { intros text m e0 H. unfold rewrite_section in H.
    destruct (split_items (group m 2)) as [|i items]; [discriminate|].
    destruct (score_items keywords (i :: items)) as [sc|e2] eqn:E2;
      simpl in H; [discriminate|].
    injection H as <-. eapply Hitems, E2. }
  assert (Hpat : forall text pattern e,
             rewrite_pattern keywords text pattern = Raise e ->
             is_Exception e = true).
  { intros text pattern e0. apply (for_each_raises (fun e => is_Exception e = true)). exact Hsect. }
  assert (Htop : forall e, top_keywords_str keywords = Raise e ->
                           is_Exception e = true).
  { intros e0 H. unfold top_keywords_str in H.
    destruct keywords as [| |s|items|fields]; try discriminate;
      try (injection H as <-; reflexivity).
    destruct (for_each _ (firstn 5 items) []) as [strs|e1] eqn:E1;
      simpl in H; [discriminate|].
    injection H as <-. revert E1. apply (for_each_raises (fun e => is_Exception e = true)).
    intros acc [] e2 H2; try discriminate; injection H2 as <-; reflexivity. }
  intros H. unfold polish_resume_body in H.
  destruct resume_text as [| |text| |]; try (injection H as <-; reflexivity).
  destruct (for_each (rewrite_pattern keywords) skill_patterns text)
    as [polished|e1] eqn:E1; simpl in H;
    [|injection H as <-; revert E1; apply (for_each_raises (fun e => is_Exception e = true)); exact Hpat].
  destruct (top_keywords_str keywords) as [top|e2] eqn:E2; simpl in H;
    [|injection H as <-; apply Htop; reflexivity].
  destruct (upper_of job_title) as [t|e3] eqn:E3; simpl in H;
    [|injection H as <-; eapply Hup, E3].
  destruct (upper_of company_name) as [c|e4] eqn:E4; simpl in H;
    [discriminate | injection H as <-; eapply Hup, E4].
Qed.

End RewriterFacts.

(** ** [re.sub(r'\s+', ' ', text)] collapses the whitespace runs *)

Lemma rep_run (p : cp -> bool) (groups : list (nat * str)) (rest : str) :
  forall (least : nat) (left : option cp) (pos : nat),
    (least <= run_len p rest ->
     exists l, rep p least Some left pos groups rest =
               Some {| c_left := l; c_pos := pos + run_len p rest;
                       c_rest := skipn (run_len p rest) rest;
                       c_groups := groups |}) /\
    (run_len p rest < least -> rep p least Some left pos groups rest = None).
Proof.
  induction rest as [|x rest IH]; intros least left pos; simpl.
  - split; intros H.
    + destruct least; [|lia]. exists left. rewrite Nat.add_0_r. reflexivity.
    + destruct least; [lia | reflexivity].
  - destruct (p x) eqn:Px; simpl.
    + destruct (IH (pred least) (Some x) (S pos)) as [Hok Hno]. split; intros H.
      * destruct Hok as [l ->]; [lia|]. exists l.
        replace (pos + S (run_len p rest)) with (S pos + run_len p rest) by lia.
        reflexivity.
      * rewrite Hno by lia. destruct least; [lia | reflexivity].
    + split; intros H.
      * destruct least; [|lia]. exists left. rewrite Nat.add_0_r. reflexivity.
      * destruct least; [lia | reflexivity].
Qed.

Lemma between_nonempty (ms : list re_match) (pos : nat) (s : str) :
  between ms pos s <> [].
Proof. destruct ms; simpl; discriminate. Qed.

Lemma between_cons (ms : list re_match) (pos : nat) (c : cp) (s : str) :
  starts_from (S pos) ms ->
  between ms pos (c :: s) =
  match between ms (S pos) s with
  | p :: ps => (c :: p) :: ps
  | [] => []
  end.
Proof.
  destruct ms as [|m ms]; simpl; [reflexivity|]. intros [Hs He].
  replace (m_start m - pos) with (S (m_start m - S pos)) by lia.
  replace (m_end m - pos) with (S (m_end m - S pos)) by lia.
  reflexivity.
Qed.

Lemma join_cons_first (sep : str) (c : cp) (p : str) (ps : list str) :
  join sep ((c :: p) :: ps) = c :: join sep (p :: ps).
Proof. destruct ps; reflexivity. Qed.

Lemma join_empty_first (sep : str) (ps : list str) :
  ps <> [] -> join sep ([] :: ps) = sep ++ join sep ps.
Proof. destruct ps; [congruence | reflexivity]. Qed.

Lemma collapse_in_run (s : str) :
  collapse true s = collapse false (skipn (run_len isspace s) s).
Proof.
  induction s as [|c s IH]; simpl; [reflexivity|].
  destruct (isspace c) eqn:E; simpl; [exact IH | rewrite E; reflexivity].
Qed.

Section NormalizerFacts.
Context {U : UnicodeData}.

Lemma match_here_run (p : cp -> bool) (left : option cp) (pos : nat)
    (rest : str) :
  match run_len p rest with
  | O => match_here (Rep p 1) left pos rest = None
  | S n => exists m, match_here (Rep p 1) left pos rest = Some m /\
                     m_start m = pos /\ m_end m = pos + S n
  end.
Proof.
  unfold match_here. simpl.
  destruct (rep_run p [] rest 1 left pos) as [Hok Hno].
  destruct (run_len p rest) as [|n] eqn:E.
  - rewrite Hno by lia. reflexivity.
  - destruct Hok as [l ->]; [lia|]. eexists. split; [reflexivity|].
    simpl. split; reflexivity.
Qed.

Lemma scan_skip (r : regex) (s : str) :
  forall (k : nat) (left : option cp) (pos : nat),
    exists left', scan r left pos k s = scan r left' (pos + k) 0 (skipn k s).
Proof.
  induction s as [|x s IH]; intros k left pos.
  - exists left. destruct k; reflexivity.
  - destruct k as [|k].
    + exists left. rewrite Nat.add_0_r. reflexivity.
    + destruct (IH k (Some x) (S pos)) as [left' E]. exists left'.
      simpl. rewrite E. f_equal. lia.
Qed.

Lemma scan_starts (r : regex) (s : str) :
  forall (k : nat) (left : option cp) (pos : nat),
    starts_from pos (scan r left pos k s).
Proof.
  assert (Mono : forall q q' ms, q <= q' -> starts_from q' ms ->
                                 starts_from q ms).
  { intros q q' [|m ms] Hq; simpl; [tauto | lia]. }
  induction s as [|x s IH]; intros k left pos; simpl; [exact I|].
  destruct k as [|k].
  - destruct (match_here r left pos (x :: s)) as [m|] eqn:E.
    + apply match_here_span in E. destruct E as (_ & _ & _ & Hs & He).
      simpl. lia.
    + apply (Mono _ (S pos)); [lia | apply IH].
  - apply (Mono _ (S pos)); [lia | apply IH].
Qed.

Lemma re_sub_whitespace_from (n : nat) :
  forall (s : str) (left : option cp) (pos : nat),
    length s <= n ->
    join [SPACE] (between (scan whitespace_run left pos 0 s) pos s)
    = collapse false s.
Proof.
  induction n as [|n IH]; intros s left pos Hn.
  - destruct s; [reflexivity | simpl in Hn; lia].
  - destruct s as [|c s]; [reflexivity|].
    pose proof (match_here_run isspace left pos (c :: s)) as Hm.
    simpl in Hn. unfold scan; fold scan. fold whitespace_run in Hm.
    simpl run_len in Hm. simpl collapse.
    destruct (isspace c) eqn:E.
    + destruct Hm as (m & -> & Hs & He).
      destruct (scan_skip whitespace_run s (m_end m - pos - 1) (Some c) (S pos))
        as [left' ->].
      replace (m_end m - pos - 1) with (run_len isspace s) by lia.
      unfold between; fold between. rewrite Hs, Nat.sub_diag.
      replace (m_end m - pos) with (S (run_len isspace s)) by lia.
      replace (m_end m) with (S pos + run_len isspace s) by lia.
      simpl firstn. simpl skipn.
      rewrite join_empty_first by apply between_nonempty.
      rewrite IH by (rewrite length_skipn; lia).
      rewrite collapse_in_run. reflexivity.
    + rewrite Hm. rewrite between_cons by apply scan_starts.
      specialize (IH s (Some c) (S pos)).
      destruct (between (scan whitespace_run (Some c) (S pos) 0 s) (S pos) s)
        as [|p ps] eqn:B; [exfalso; eapply between_nonempty, B|].
      rewrite join_cons_first, IH by lia. reflexivity.
Qed.

(** The matcher agrees with the direct reading of [\s+]. *)
Lemma re_sub_whitespace (s : str) :
  re_sub whitespace_run [SPACE] s = collapse false s.
Proof.
  unfold re_sub, re_split, finditer.
  apply (re_sub_whitespace_from (n := length s)). lia.
Qed.

End NormalizerFacts.

(** ** Single spaces and spaced bullets *)

Definition head_is_space (s : str) : bool :=
  match s with
  | c :: _ => isspace c
  | [] => false
  end.

Lemma no_pair_cons (x : cp) (t : str) :
  (forall pre a b post,
      t = pre ++ a :: b :: post -> isspace a = true -> isspace b = true ->
      False) ->
  (isspace x = true -> head_is_space t = false) ->
  forall pre a b post,
    x :: t = pre ++ a :: b :: post -> isspace a = true -> isspace b = true ->
    False.
Proof.
  intros Ht Hx [|y pre] a b post E Ha Hb; simpl in E; injection E as -> E.
  - subst t. simpl in Hx. rewrite Hx in Hb by exact Ha. discriminate.
  - eapply Ht; eassumption.
Qed.

Lemma collapse_single_spaced (s : str) :
  forall in_run,
    single_spaced (collapse in_run s) /\
    (in_run = true -> head_is_space (collapse in_run s) = false).
Proof.
  induction s as [|c s IH]; intros in_run; simpl.
  - split; [split|]; [intros c [] | | reflexivity].
    intros [|x pre] a b post E; discriminate.
  - destruct (isspace c) eqn:E.
    + destruct (IH true) as [[H1 H2] H3]. destruct in_run.
      * split; [split; assumption | exact H3].
      * split; [|discriminate]. split.
        -- intros x [<-|Hx] Hs; [reflexivity | apply H1; assumption].
        -- apply no_pair_cons; [exact H2 | intros _; apply H3; reflexivity].
    + destruct (IH false) as [[H1 H2] _]. split; [|intros _; exact E]. split.
      * intros x [<-|Hx] Hs; [congruence | apply H1; assumption].
      * apply no_pair_cons; [exact H2 | congruence].
Qed.

(** Putting " • " in place of each bullet. *)
Definition space_bullets (s : str) : str :=
  flat_map (fun x => if N.eqb BULLET x then [SPACE; BULLET; SPACE] else [x]) s.

Lemma space_bullets_cons (c : cp) (s : str) :
  space_bullets (c :: s) =
  (if N.eqb BULLET c then [SPACE; BULLET; SPACE] else [c]) ++ space_bullets s.
Proof. reflexivity. Qed.

Lemma space_bullets_spaced (s : str) : bullets_spaced (space_bullets s).
Proof.
  induction s as [|c s IH]; intros pre post E.
  - destruct pre; discriminate.
  - rewrite space_bullets_cons in E.
    destruct (N.eqb BULLET c) eqn:Ec.
    + cbn [app] in E. destruct pre as [|p0 [|p1 [|p2 pre]]]; cbn [app] in E.
      * injection E as E _. discriminate.
      * injection E as <- E. split; [exists []; reflexivity|].
        eexists. symmetry. exact E.
      * injection E as _ _ E _. discriminate.
      * injection E as <- <- <- E. destruct (IH pre post E) as [[pre' ->] Hpost].
        split; [|exact Hpost].
        exists (SPACE :: BULLET :: SPACE :: pre'). reflexivity.
    + cbn [app] in E. destruct pre as [|p0 pre]; cbn [app] in E.
      * injection E as E1 _. subst c. rewrite N.eqb_refl in Ec. discriminate.
      * injection E as -> E. destruct (IH pre post E) as [[pre' ->] Hpost].
        split; [|exact Hpost]. exists (p0 :: pre'). reflexivity.
Qed.

Lemma space_bullets_in (s : str) (c : cp) :
  In c (space_bullets s) -> In c s \/ c = SPACE.
Proof.
  induction s as [|x s IH]; [simpl; tauto|].
  rewrite space_bullets_cons.
  destruct (N.eqb BULLET x) eqn:E; intros H; apply in_app_or in H;
    destruct H as [H|H]; try (apply IH in H; simpl; tauto).
  - apply N.eqb_eq in E. simpl in H. simpl. intuition congruence.
  - simpl in H. simpl. intuition.
Qed.

(** ** [str.strip] *)

Lemma lstrip_factor (s : str) : exists l, s = l ++ lstrip s.
Proof.
  induction s as [|c s [l IH]]; simpl; [exists []; reflexivity|].
  destruct (isspace c); [|exists []; reflexivity].
  exists (c :: l). simpl. f_equal. exact IH.
Qed.

Lemma strip_factor (s : str) : exists l r, s = l ++ strip s ++ r.
Proof.
  unfold strip, rstrip. destruct (lstrip_factor s) as [l Hl].
  destruct (lstrip_factor (rev (lstrip s))) as [r Hr].
  exists l, (rev r). rewrite <- rev_app_distr, <- Hr, rev_involutive.
  exact Hl.
Qed.

Lemma bullets_spaced_strip (s : str) :
  bullets_spaced s -> bullets_spaced_inside (strip s).
Proof.
  intros H pre post E. destruct (strip_factor s) as (l & r & Hs).
  rewrite E in Hs.
  assert (Hs' : s = (l ++ pre) ++ BULLET :: (post ++ r)).
  { rewrite Hs. repeat rewrite <- app_assoc. reflexivity. }
  destruct (H _ _ Hs') as [[pre' Hpre] [post' Hpost]]. split.
  - destruct pre as [|p pre] using rev_ind; [left; reflexivity|]. right.
    rewrite app_assoc in Hpre. apply app_inj_tail in Hpre.
    destruct Hpre as [_ ->]. exists pre. reflexivity.
  - destruct post as [|q post]; [left; reflexivity|]. right.
    simpl in Hpost. injection Hpost as -> _. exists post. reflexivity.
Qed.

(** ** Orchestrator *)

Lemma for_each_returns (A B : Type) (step : B -> A -> result B)
    (xs : list A) :
  (forall acc x, exists acc', step acc x = Ok acc') ->
  forall acc, exists r, for_each step xs acc = Ok r.
Proof.
  intros H. induction xs as [|x xs IH]; intros acc; simpl.
  - exists acc. reflexivity.
  - destruct (H acc x) as [acc' ->]. simpl. apply IH.
Qed.

Section OrchestratorFacts.
Context {U : UnicodeData}.

(** On strings the rewriter returns a string that starts with the
    banner. *)
Lemma polish_resume_typed (text : str) (keywords : list str)
    (job_title company_name : str) :
  exists polished_text,
    polish_resume (PStr text) (PList (map PStr keywords)) (PStr job_title)
      (PStr company_name)
    = Ok (PStr (tailored_banner keywords job_title company_name
                  ++ polished_text)).
Proof.
  destruct (for_each_returns
              (rewrite_pattern (PList (map PStr keywords))) skill_patterns)
    with (acc := text) as [polished H].
  - intros acc pattern. unfold rewrite_pattern. apply for_each_returns.
    intros acc' m. rewrite rewrite_section_str. eexists. reflexivity.
  - exists polished. apply polish_resume_str, H.
Qed.

(** The cover-letter step when the text generator fails. *)
Lemma generate_cover_failed (w_post : str -> payload -> post_outcome)
    (resume_text cover_template job_title company_name job_description : str) :
  post_failed (w_post OLLAMA_URL
                 (cover_payload resume_text cover_template job_title
                    company_name job_description)) ->
  exists message,
    generate_cover_with_ollama w_post resume_text cover_template job_title
      company_name job_description = Ok (PStr message) /\
    (message = lit "Error: Could not connect to Ollama. Please ensure Ollama is running on "
                 ++ OLLAMA_URL \/
     exists status_code : Z,
       message = lit "Error generating cover letter: Ollama API returned "
                   ++ str_of_int status_code).
Proof.
  unfold generate_cover_with_ollama, post_failed.
  destruct (w_post OLLAMA_URL _) as [e|status_code text json]; intros H.
  - rewrite H. eexists. split; [reflexivity | left; reflexivity].
  - apply Z.eqb_neq in H. rewrite H. eexists.
    split; [reflexivity | right; exists status_code; reflexivity].
Qed.

(** The run of a request that passes validation, given what the
    rewriter and the cover-letter step return. *)
Lemma process_job_accepted (w : world) (resume_text cover_template : str)
    (polished generated : pyval) :
  all_nonempty [field w "job_title"; field w "company_name";
                field w "job_description"] = true ->
  files w resume_text_path = Some (Ok resume_text) ->
  files w cover_text_path = Some (Ok cover_template) ->
  polish_resume (PStr resume_text)
    (PList (map PStr (extract_keywords (field w "job_description") 10)))
    (PStr (field w "job_title")) (PStr (field w "company_name")) = Ok polished ->
  generate_cover_with_ollama (post w) resume_text cover_template
    (field w "job_title") (field w "company_name") (field w "job_description")
    = Ok generated ->
  let calls :=
    [Ranked (field w "job_description");
     Polished resume_text (extract_keywords (field w "job_description") 10);
     Posted OLLAMA_URL
       (cover_payload resume_text cover_template (field w "job_title")
          (field w "company_name") (field w "job_description"));
     Rendered polished (resume_pdf_path w)
       (lit "Tailored Resume - " ++ field w "job_title");
     Rendered generated (cover_pdf_path w)
       (lit "Cover Letter - " ++ field w "job_title")] in
  let resume_success :=
    match polished with
    | PStr t => fpdf w t (resume_pdf_path w)
                  (lit "Tailored Resume - " ++ field w "job_title")
    | _ => false
    end in
  let cover_success :=
    match generated with
    | PStr t => fpdf w t (cover_pdf_path w)
                  (lit "Cover Letter - " ++ field w "job_title")
    | _ => false
    end in
  process_job w [] =
  if (negb resume_success || negb cover_success)%bool then
    (Ok {| status := 500; body := Error (lit "Failed to create PDF files") |},
     calls)
  else
    match zip w (zip_path w) (zip_members w) with
    | Ok _ =>
        (Ok {| status := 200;
               body := Success (resume_pdf_path w) (cover_pdf_path w)
                         (zip_path w)
                         (extract_keywords (field w "job_description") 10) |},
         calls ++ [Zipped (zip_path w) (zip_members w)])
    | Raise e =>
        if is_Exception e then
          (Ok {| status := 500;
                 body := Error (lit "Processing failed: " ++ exn_str e) |},
           calls ++ [Zipped (zip_path w) (zip_members w)])
        else (Raise e, calls ++ [Zipped (zip_path w) (zip_members w)])
    end.
Proof.
  unfold field, zip_members, resume_pdf_path, cover_pdf_path, zip_path.
  intros Hfields Hr Hc Hp Hg. cbv zeta.
  unfold process_job, try_except, path_exists, read_text.
  rewrite Hfields, Hr, Hc.
  cbv beta iota zeta delta [negb bindM lift emit ret create_pdf].
  rewrite Hp, Hg. cbv beta iota.
  match goal with
  | |- context [((if ?a then false else true)
                 || (if ?b then false else true))%bool] =>
      destruct a; destruct b
  end; try reflexivity.
  cbv beta iota delta [negb orb].
  match goal with
  | |- context [zip w ?p ?ms] => destruct (zip w p ms) as [[]|e]
  end; [reflexivity|].
  destruct (is_Exception e); reflexivity.
Qed.

End OrchestratorFacts.

(** ** Keyword ranker *)

Lemma ranks_before_asym (words : list str) (a b : str) :
  ranks_before words a b -> ranks_before words b a -> False.
Proof. unfold ranks_before. lia. Qed.

Lemma NoDup_firstn (A : Type) (n : nat) (l : list A) :
  NoDup l -> NoDup (firstn n l).
Proof.
  intros H. rewrite <- (firstn_skipn n l) in H.
  apply NoDup_app_remove_r in H. exact H.
Qed.

(** Two duplicate-free lists with the same elements, strongly sorted by
    an asymmetric relation, are the same list. *)
Lemma sorted_unique (A : Type) (R : A -> A -> Prop) (l1 l2 : list A) :
  (forall a b, R a b -> R b a -> False) ->
  NoDup l1 -> NoDup l2 -> (forall x, In x l1 <-> In x l2) ->
  StronglySorted R l1 -> StronglySorted R l2 -> l1 = l2.
Proof.
  intros Asym. revert l2.
  induction l1 as [|x l1 IH]; intros [|y l2] N1 N2 Same S1 S2.
  - reflexivity.
  - exfalso. apply (Same y). simpl; auto.
  - exfalso. apply (Same x). simpl; auto.
  - apply StronglySorted_inv in S1, S2.
    destruct S1 as [S1 F1], S2 as [S2 F2].
    rewrite Forall_forall in F1, F2.
    inversion N1 as [|? ? Hx N1']; inversion N2 as [|? ? Hy N2']; subst.
    assert (E : x = y).
    { destruct (proj1 (Same x) (or_introl eq_refl)) as [E|Hx2]; [auto|].
      destruct (proj2 (Same y) (or_introl eq_refl)) as [E|Hy1]; [auto|].
      exfalso. apply (Asym x y); auto. }
    subst y. f_equal. apply IH; auto.
    intros z. split; intros Hz.
    + destruct (proj1 (Same z) (or_intror Hz)) as [E|H]; [|exact H].
      subst z. contradiction.
    + destruct (proj2 (Same z) (or_intror Hz)) as [E|H]; [|exact H].
      subst z. contradiction.
Qed.

(** A token stream has one ranking only. *)
Lemma is_ranking_unique (words r1 r2 : list str) :
  is_ranking words r1 -> is_ranking words r2 -> r1 = r2.
Proof.
  intros (N1 & I1 & S1) (N2 & I2 & S2).
  apply (sorted_unique (@ranks_before_asym words)); auto.
  intros x. rewrite I1, I2. tauto.
Qed.

Lemma ranked_is_ranking (words : list str) :
  is_ranking words (map fst (ranked words)).
Proof.
  destruct (count_words_counted words) as (ND & Keys & Get & Ord).
  unfold ranked.
  pose proof (sorted_desc_perm snd (count_words words)) as P.
  repeat split.
  - apply (Permutation_NoDup (Permutation_map fst P)), ND.
  - intros H. apply Keys.
    apply (Permutation_in _ (Permutation_sym (Permutation_map fst P))), H.
  - intros H. apply (Permutation_in _ (Permutation_map fst P)), Keys, H.
  - apply (StronglySorted_map fst (ranks_before words)).
    apply (StronglySorted_map fst
             (fun a b => first_index a words < first_index b words)) in Ord.
    apply (sorted_desc_sorted snd) in Ord.
    revert Ord. apply StronglySorted_impl_in.
    assert (Hsnd : forall a, In a (sorted_desc snd (count_words words)) ->
                             snd a = freq (fst a) words).
    { intros [w n] Ha. simpl.
      apply (Permutation_in _ (Permutation_sym P)) in Ha.
      rewrite <- (@dict_get_in _ _ _ 0 ND Ha). apply Get, Keys.
      change w with (fst (w, n)). apply in_map, Ha. }
    intros a b Ha Hb. unfold desc_then, ranks_before.
    rewrite (Hsnd a Ha), (Hsnd b Hb). tauto.
Qed.

Section RankerFacts.
Context {U : UnicodeData}.

Lemma extract_keywords_slice (text : str) (top_k : Z) :
  extract_keywords text top_k =
  slice_to top_k (map fst (ranked (surviving_words text))).
Proof.
  unfold extract_keywords, slice_to.
  destruct (surviving_words text) as [|w ws] eqn:E.
  - unfold ranked, count_words. simpl.
    destruct (0 <=? top_k)%Z; [rewrite firstn_nil|]; reflexivity.
  - rewrite length_map. destruct (0 <=? top_k)%Z; symmetry; apply firstn_map.
Qed.

(** For a negative [top_k] the slice drops the last [- top_k] entries
    of the ranking. *)
Lemma extract_keywords_negative (text : str) (top_k : Z) :
  (top_k < 0)%Z ->
  let ranking := map fst (ranked (surviving_words text)) in
  extract_keywords text top_k =
  firstn (length ranking - Z.to_nat (- top_k)) ranking.
Proof.
  intros H. rewrite extract_keywords_slice. unfold slice_to.
  destruct (0 <=? top_k)%Z eqn:E; [apply Z.leb_le in E; lia | reflexivity].
Qed.

(** C1, as amended: for every text and every non-negative [top_k], the
    keyword ranker returns the first [top_k] entries (the first 10 by
    default) of the ranking of the tokens that survive tokenization and
    the stop-word filter: each distinct token once, in descending order
    of frequency, ties in order of first occurrence in the token stream.
    When no token survives the result is empty. *)
Theorem extract_keywords_ranking (text : str) (top_k : Z) :
  (0 <= top_k)%Z ->
  exists ranking : list str,
    is_ranking (surviving_words text) ranking /\
    extract_keywords text top_k = firstn (Z.to_nat top_k) ranking /\
    extract_keywords_default text = firstn 10 ranking /\
    (surviving_words text = [] -> extract_keywords text top_k = []).
Proof.
  intros H. exists (map fst (ranked (surviving_words text))).
  split; [apply ranked_is_ranking|]. split; [|split].
  - rewrite extract_keywords_slice. unfold slice_to.
    destruct (0 <=? top_k)%Z eqn:E; [reflexivity|].
    apply Z.leb_gt in E. lia.
  - unfold extract_keywords_default. rewrite extract_keywords_slice.
    reflexivity.
  - intros E. unfold extract_keywords. rewrite E. reflexivity.
Qed.

(** C10: the sequence the keyword ranker returns has no duplicate term,
    whatever the text and [top_k]. *)
Theorem extract_keywords_NoDup (text : str) (top_k : Z) :
  NoDup (extract_keywords text top_k).
Proof.
  rewrite extract_keywords_slice. unfold slice_to.
  destruct (ranked_is_ranking (surviving_words text)) as (ND & _).
  destruct (0 <=? top_k)%Z; apply NoDup_firstn, ND.
Qed.

(** C2, as amended: for the job description of the example and
    [top_k = 5] the ranker returns [looking, python, developer, flask,
    docker]: "looking" is no stop word, it comes first and "experience"
    falls outside the first five. *)
Theorem extract_keywords_example :
  extract_keywords
    (lit "Looking for a Python developer with Flask and Docker experience") 5
  = map lit ["looking"; "python"; "developer"; "flask"; "docker"]%string.
Proof. vm_compute. reflexivity. Qed.

End RankerFacts.

Lemma extract_keywords_ranking_witness :
  exists ranking : list str,
    is_ranking
      (surviving_words (U := caseless_beyond_ascii)
         (lit "python flask python")) ranking /\
    extract_keywords (U := caseless_beyond_ascii)
      (lit "python flask python") 1 = firstn (Z.to_nat 1) ranking /\
    extract_keywords_default (U := caseless_beyond_ascii)
      (lit "python flask python") = firstn 10 ranking /\
    (surviving_words (U := caseless_beyond_ascii)
       (lit "python flask python") = [] ->
     extract_keywords (U := caseless_beyond_ascii)
       (lit "python flask python") 1 = []).
Proof.
  apply (@extract_keywords_ranking caseless_beyond_ascii
           (lit "python flask python") 1).
  lia.
Defined.

(** C1 as stated fails for a negative [top_k]: with [top_k = -1] the
    ranker returns one keyword of "python flask", which is not the
    first [top_k] entries of any list. *)
Lemma extract_keywords_negative_top_k :
  extract_keywords (U := caseless_beyond_ascii) (lit "python flask") (-1)
    = [lit "python"] /\
  forall ranking : list str,
    extract_keywords (U := caseless_beyond_ascii) (lit "python flask") (-1)
      <> firstn (Z.to_nat (-1)) ranking.
Proof.
  split; [vm_compute; reflexivity|].
  intros ranking. simpl firstn. vm_compute. discriminate.
Qed.

(** C2 as stated fails: the ranker does not return [python, developer,
    flask, docker, experience]. *)
Lemma extract_keywords_example_differs :
  extract_keywords (U := caseless_beyond_ascii)
    (lit "Looking for a Python developer with Flask and Docker experience") 5
  = map lit ["looking"; "python"; "developer"; "flask"; "docker"]%string /\
  extract_keywords (U := caseless_beyond_ascii)
    (lit "Looking for a Python developer with Flask and Docker experience") 5
  <> map lit ["python"; "developer"; "flask"; "docker"; "experience"]%string.
Proof.
  split; [vm_compute; reflexivity | vm_compute; discriminate].
Qed.

(** ** Section rewriter *)

Lemma skill_patterns_consume (pattern : regex) :
  In pattern skill_patterns -> 0 < min_len pattern.
Proof.
  intros [<-|[<-|[<-|[]]]]; vm_compute; lia.
Qed.

(** The text with the same section twice, the second time with a
    longer last item. *)
Definition repeated_section : str :=
  lit "SKILLS: b, a" ++ [LF] ++ lit "SKILLS: b, ax".

Section RewriterClaims.
Context {U : UnicodeData}.

(** C3: for the résumé text "SKILLS: Java, Python, SQL" and the keyword
    list [python], the output of the section rewriter is the banner
    followed by the section rewritten as "SKILLS: Python, Java, SQL":
    the item that contains the keyword comes first, the others keep
    their order. *)
Theorem polish_resume_example (job_title company_name : str) :
  polish_resume (PStr (lit "SKILLS: Java, Python, SQL"))
                (PList [PStr (lit "python")])
                (PStr job_title) (PStr company_name)
  = Ok (PStr (tailored_banner [lit "python"] job_title company_name
                ++ lit "SKILLS: Python, Java, SQL")).
Proof.
  apply (polish_resume_str _ [lit "python"]). vm_compute. reflexivity.
Qed.

(** C4, as amended: for every résumé text and every matched skill
    section with at least one item, the rewriter builds the section
    "<header>: <reordered items>", the items joined by ", ", and puts it
    in place of every occurrence of the matched span in the current
    text, taken from the left without overlap (not of the first
    occurrence only); a section without items leaves the text as it
    is. *)
Theorem rewrite_section_replaces_all (keywords : list str)
    (text polished_text : str) (pattern : regex) (m : re_match) :
  In pattern skill_patterns ->
  In m (finditer pattern text) ->
  exists out,
    rewrite_section (PList (map PStr keywords)) polished_text m = Ok out /\
    (split_items (group m 2) = [] -> out = polished_text) /\
    (split_items (group m 2) <> [] ->
     ReplacedAll (group m 0)
       (group m 1 ++ lit ": "
          ++ join (lit ", ") (reorder keywords (split_items (group m 2))))
       polished_text out).
Proof.
  intros Hp Hm. rewrite rewrite_section_str. eexists. split; [reflexivity|].
  destruct (split_items (group m 2)) as [|item items].
  - split; [reflexivity | congruence].
  - split; [discriminate|]. intros _. apply str_replace_spec.
    simpl. eapply finditer_span_nonempty; [|exact Hm].
    apply skill_patterns_consume, Hp.
Qed.

(** C6: for every matched skill section, the items the rewriter writes
    back are a permutation of the items it parsed from the content of
    the section: none is dropped, none is added. *)
Theorem reordering_keeps_items (keywords : list str) (polished_text : str)
    (m : re_match) :
  exists written : list str,
    Permutation (split_items (group m 2)) written /\
    rewrite_section (PList (map PStr keywords)) polished_text m =
    Ok (match split_items (group m 2) with
        | [] => polished_text
        | _ :: _ =>
            str_replace (group m 0)
              (group m 1 ++ lit ": " ++ join (lit ", ") written)
              polished_text
        end).
Proof.
  exists (reorder keywords (split_items (group m 2))). split.
  - apply sorted_desc_perm.
  - apply rewrite_section_str.
Qed.

(** C5: the section rewriter never raises. Whatever its arguments are,
    it returns; when a statement of its body raises, it returns the
    résumé text it was given; and for a text in which no section-header
    pattern matches it returns the text unchanged after the banner. *)
Theorem polish_resume_never_raises (resume_text keywords job_title
    company_name : pyval) :
  exists out : pyval,
    polish_resume resume_text keywords job_title company_name = Ok out /\
    (forall e,
        polish_resume_body resume_text keywords job_title company_name
          = Raise e ->
        out = resume_text) /\
    (forall text kws title company,
        resume_text = PStr text -> keywords = PList (map PStr kws) ->
        job_title = PStr title -> company_name = PStr company ->
        headerless text ->
        out = PStr (tailored_banner kws title company ++ text)).
Proof.
  assert (Hstr : forall text kws title company,
             resume_text = PStr text -> keywords = PList (map PStr kws) ->
             job_title = PStr title -> company_name = PStr company ->
             headerless text ->
             polish_resume resume_text keywords job_title company_name
             = Ok (PStr (tailored_banner kws title company ++ text))).
  { intros text kws title company -> -> -> -> H.
    apply polish_resume_str, for_each_fixed.
    intros p Hp. apply rewrite_pattern_no_match, H, Hp. }
  unfold polish_resume in *.
  destruct (polish_resume_body resume_text keywords job_title company_name)
    as [v|e] eqn:E.
  - exists v. split; [reflexivity|]. split; [discriminate|].
    intros text kws title company H1 H2 H3 H4 H.
    specialize (Hstr _ _ _ _ H1 H2 H3 H4 H). congruence.
  - rewrite (polish_resume_body_raises _ _ _ _ E) in *.
    exists resume_text. split; [reflexivity|]. split; [reflexivity|].
    intros text kws title company H1 H2 H3 H4 H.
    specialize (Hstr _ _ _ _ H1 H2 H3 H4 H). congruence.
Qed.

End RewriterClaims.

Lemma headerless_hello : headerless (U := caseless_beyond_ascii) (lit "Hello world").
Proof.
  intros pattern [<-|[<-|[<-|[]]]]; vm_compute; reflexivity.
Qed.

Lemma polish_resume_never_raises_witness :
  polish_resume (U := caseless_beyond_ascii) (PStr (lit "Hello world"))
    (PList (map PStr [lit "python"])) (PStr (lit "Dev")) (PStr (lit "Acme"))
  = Ok (PStr (tailored_banner (U := caseless_beyond_ascii) [lit "python"]
                (lit "Dev") (lit "Acme") ++ lit "Hello world")).
Proof.
  destruct (@polish_resume_never_raises caseless_beyond_ascii
              (PStr (lit "Hello world")) (PList (map PStr [lit "python"]))
              (PStr (lit "Dev")) (PStr (lit "Acme")))
    as (out & Hout & _ & Hbanner).
  rewrite Hout. f_equal.
  apply Hbanner; try reflexivity. exact headerless_hello.
Defined.

(** A keyword that is not a string makes the body raise when a section
    is scored; the résumé text comes back as it was, without banner. *)
Example polish_resume_swallows :
  polish_resume (U := caseless_beyond_ascii) (PStr (lit "SKILLS: Java, Python"))
    (PList [PNone]) (PStr (lit "Dev")) (PStr (lit "Acme"))
  = Ok (PStr (lit "SKILLS: Java, Python")).
Proof. vm_compute. reflexivity. Qed.

(** The match of the first section of [repeated_section]. *)
Definition first_section_match : re_match :=
  {| m_start := 0; m_end := 12; m_span := lit "SKILLS: b, a";
     m_groups := [(2, lit "b, a"); (1, lit "SKILLS")] |}.

Lemma rewrite_section_replaces_all_witness :
  exists out,
    rewrite_section (U := caseless_beyond_ascii) (PList (map PStr [lit "a"]))
      repeated_section first_section_match = Ok out /\
    (split_items (U := caseless_beyond_ascii) (group first_section_match 2) = []
     -> out = repeated_section) /\
    (split_items (U := caseless_beyond_ascii) (group first_section_match 2) <> []
     -> ReplacedAll (group first_section_match 0)
          (group first_section_match 1 ++ lit ": "
             ++ join (lit ", ")
                  (reorder (U := caseless_beyond_ascii) [lit "a"]
                     (split_items (U := caseless_beyond_ascii)
                        (group first_section_match 2))))
          repeated_section out).
Proof.
  apply (@rewrite_section_replaces_all caseless_beyond_ascii [lit "a"]
           repeated_section repeated_section
           (nth 0 skill_patterns Empty) first_section_match).
  - simpl. auto.
  - vm_compute. left. reflexivity.
Defined.

(** C4 as stated fails: the rewriter replaces the second occurrence of
    the span "SKILLS: b, a" as well, which is the start of another
    section ("SKILLS: b, ax" becomes "SKILLS: a, bx"); replacing the
    first occurrence only would have left it alone. *)
Lemma rewrite_section_beyond_first_occurrence :
  In first_section_match
     (finditer (U := caseless_beyond_ascii) (nth 0 skill_patterns Empty)
        repeated_section) /\
  rewrite_section (U := caseless_beyond_ascii) (PList [PStr (lit "a")])
    repeated_section first_section_match
    = Ok (lit "SKILLS: a, b" ++ [LF] ++ lit "SKILLS: a, bx") /\
  replace_first (group first_section_match 0) (lit "SKILLS: a, b")
    repeated_section
    = lit "SKILLS: a, b" ++ [LF] ++ lit "SKILLS: b, ax" /\
  rewrite_section (U := caseless_beyond_ascii) (PList [PStr (lit "a")])
    repeated_section first_section_match
    <> Ok (replace_first (group first_section_match 0) (lit "SKILLS: a, b")
             repeated_section) /\
  polish_resume (U := caseless_beyond_ascii) (PStr repeated_section)
    (PList [PStr (lit "a")]) (PStr (lit "Dev")) (PStr (lit "Acme"))
    = Ok (PStr (tailored_banner (U := caseless_beyond_ascii) [lit "a"]
                  (lit "Dev") (lit "Acme")
                  ++ lit "SKILLS: a, b" ++ [LF] ++ lit "SKILLS: a, bx")).
Proof.
  split; [vm_compute; left; reflexivity|].
  split; [vm_compute; reflexivity|].
  split; [vm_compute; reflexivity|].
  split; [vm_compute; discriminate | vm_compute; reflexivity].
Qed.

(** ** Text normalizer *)

Section NormalizerClaims.
Context {U : UnicodeData}.

Lemma spaced_space_bullets (text : str) :
  spaced text = space_bullets (collapsed text).
Proof. unfold spaced. apply str_replace_char. Qed.

(** C7, as amended: the normalizer collapses every whitespace run
    (newlines included) to a single space, then puts a space before and
    after every bullet marker, then trims the text. After the first
    step the whitespace runs are single spaces, and after the second
    every bullet marker has a space on both sides. In the output every
    whitespace code point is a plain space, and every bullet marker has
    a space immediately before it unless it is the first code point and
    immediately after it unless it is the last; a run next to a bullet
    marker may be longer than one space. *)
Theorem normalize_canonical (text : str) :
  normalize text = strip (spaced text) /\
  single_spaced (collapsed text) /\
  bullets_spaced (spaced text) /\
  (forall c, In c (normalize text) -> isspace c = true -> c = SPACE) /\
  bullets_spaced_inside (normalize text).
Proof.
  assert (Hc : single_spaced (collapsed text)).
  { unfold collapsed. rewrite re_sub_whitespace.
    apply collapse_single_spaced. }
  assert (Hb : bullets_spaced (spaced text)).
  { rewrite spaced_space_bullets. apply space_bullets_spaced. }
  split; [reflexivity|]. split; [exact Hc|]. split; [exact Hb|].
  change (normalize text) with (strip (spaced text)). split.
  - intros c Hin Hs. destruct (strip_factor (spaced text)) as (l & r & E).
    assert (Hin' : In c (spaced text)).
    { rewrite E. apply in_or_app. right. apply in_or_app. left. exact Hin. }
    rewrite spaced_space_bullets in Hin'.
    apply space_bullets_in in Hin'. destruct Hin' as [Hin' | ->]; [|reflexivity].
    apply (proj1 Hc); assumption.
  - apply bullets_spaced_strip, Hb.
Qed.

End NormalizerClaims.

(** C7 as stated fails: a text that is one bullet marker is normalized
    to the bullet marker alone, with no space on either side, and in
    the output for "a • b" the bullet marker stands between two runs of
    two spaces. *)
Lemma normalize_bullet_spacing :
  normalize (U := caseless_beyond_ascii) [BULLET] = [BULLET] /\
  ~ bullets_spaced (normalize (U := caseless_beyond_ascii) [BULLET]) /\
  normalize (U := caseless_beyond_ascii) (lit "a " ++ [BULLET] ++ lit " b")
    = lit "a  " ++ [BULLET] ++ lit "  b" /\
  ~ single_spaced
      (normalize (U := caseless_beyond_ascii)
         (lit "a " ++ [BULLET] ++ lit " b")).
Proof.
  split; [vm_compute; reflexivity|]. split.
  - intros H. destruct (H [] [] eq_refl) as [[pre' E] _].
    destruct pre'; discriminate.
  - split; [vm_compute; reflexivity|].
    intros [_ H]. apply (H (lit "a") SPACE SPACE (BULLET :: lit "  b"));
      vm_compute; reflexivity.
Qed.

(** ** Tailoring orchestrator *)

Lemma all_nonempty_3 (a b c : str) :
  all_nonempty [a; b; c] = true <-> a <> [] /\ b <> [] /\ c <> [].
Proof.
  unfold all_nonempty. simpl.
  destruct a, b, c; simpl; split; intros H; try discriminate;
    try reflexivity; try (repeat split; discriminate);
    destruct H as (Ha & Hb & Hc); congruence.
Qed.

Section OrchestratorClaims.
Context {U : UnicodeData}.

(** C8: a tailoring request in which job_title, company_name or
    job_description is empty after trimming is answered 400 "All fields
    are required"; a request with all fields present is answered 400
    with the missing-resume-template message when the résumé template
    is absent, and with the missing-cover-letter-template message when
    only the cover-letter template is absent. In each case the
    orchestrator has made no call: no keyword ranking, no rewriting, no
    text generation, no rendering. *)
Theorem process_job_rejects (w : world) :
  (field w "job_title" = [] \/ field w "company_name" = [] \/
   field w "job_description" = [] ->
   process_job w [] =
   (Ok {| status := 400; body := Error (lit "All fields are required") |},
    [])) /\
  (field w "job_title" <> [] -> field w "company_name" <> [] ->
   field w "job_description" <> [] ->
   files w resume_text_path = None ->
   process_job w [] =
   (Ok {| status := 400;
          body := Error (lit "Resume template not found. Please upload a resume first.") |},
    [])) /\
  (field w "job_title" <> [] -> field w "company_name" <> [] ->
   field w "job_description" <> [] ->
   files w resume_text_path <> None ->
   files w cover_text_path = None ->
   process_job w [] =
   (Ok {| status := 400;
          body := Error (lit "Cover letter template not found. Please upload a cover letter first.") |},
    [])).
Proof.
  unfold field. split; [|split].
  - intros H.
    assert (Hf : all_nonempty
                   [strip (form_get (form w) (lit "job_title"));
                    strip (form_get (form w) (lit "company_name"));
                    strip (form_get (form w) (lit "job_description"))]
                 = false).
    { destruct (all_nonempty _) eqn:E; [|reflexivity].
      apply all_nonempty_3 in E. tauto. }
    unfold process_job, try_except. rewrite Hf. reflexivity.
  - intros H1 H2 H3 Hr.
    pose proof (proj2 (all_nonempty_3 _ _ _) (conj H1 (conj H2 H3))) as Hf.
    unfold process_job, try_except, path_exists. rewrite Hf, Hr. reflexivity.
  - intros H1 H2 H3 Hr Hc.
    pose proof (proj2 (all_nonempty_3 _ _ _) (conj H1 (conj H2 H3))) as Hf.
    unfold process_job, try_except, path_exists. rewrite Hf, Hc.
    destruct (files w resume_text_path); [reflexivity | congruence].
Qed.

(** C9: when the call to the external text generator fails with a
    transport error or with a status other than 200, the cover-letter
    step does not raise: it returns an error string as the cover-letter
    body. The orchestrator goes on: it renders the résumé and renders
    the cover letter from that string, and when both renderings succeed
    it bundles the two documents and answers with success. *)
Theorem cover_failure_degrades (w : world) (resume_text cover_template : str) :
  field w "job_title" <> [] -> field w "company_name" <> [] ->
  field w "job_description" <> [] ->
  files w resume_text_path = Some (Ok resume_text) ->
  files w cover_text_path = Some (Ok cover_template) ->
  post_failed (post w OLLAMA_URL
                 (cover_payload resume_text cover_template
                    (field w "job_title") (field w "company_name")
                    (field w "job_description"))) ->
  exists message polished : str,
    generate_cover_with_ollama (post w) resume_text cover_template
      (field w "job_title") (field w "company_name")
      (field w "job_description") = Ok (PStr message) /\
    (message = lit "Error: Could not connect to Ollama. Please ensure Ollama is running on "
                 ++ OLLAMA_URL \/
     exists status_code : Z,
       message = lit "Error generating cover letter: Ollama API returned "
                   ++ str_of_int status_code) /\
    let keywords := extract_keywords (field w "job_description") 10 in
    let calls :=
      [Ranked (field w "job_description");
       Polished resume_text keywords;
       Posted OLLAMA_URL
         (cover_payload resume_text cover_template (field w "job_title")
            (field w "company_name") (field w "job_description"));
       Rendered (PStr polished) (resume_pdf_path w)
         (lit "Tailored Resume - " ++ field w "job_title");
       Rendered (PStr message) (cover_pdf_path w)
         (lit "Cover Letter - " ++ field w "job_title")] in
    let rendered :=
      (fpdf w polished (resume_pdf_path w)
         (lit "Tailored Resume - " ++ field w "job_title")
       && fpdf w message (cover_pdf_path w)
            (lit "Cover Letter - " ++ field w "job_title"))%bool in
    (rendered = false ->
     process_job w [] =
     (Ok {| status := 500; body := Error (lit "Failed to create PDF files") |},
      calls)) /\
    (rendered = true -> zip w (zip_path w) (zip_members w) = Ok tt ->
     process_job w [] =
     (Ok {| status := 200;
            body := Success (resume_pdf_path w) (cover_pdf_path w)
                      (zip_path w) keywords |},
      calls ++ [Zipped (zip_path w) (zip_members w)])).
Proof.
  intros H1 H2 H3 Hr Hc Hpost.
  pose proof (proj2 (all_nonempty_3 _ _ _) (conj H1 (conj H2 H3))) as Hf.
  destruct (generate_cover_failed _ _ _ _ _ _ Hpost) as (message & Hg & Hm).
  destruct (polish_resume_typed resume_text
              (extract_keywords (field w "job_description") 10)
              (field w "job_title") (field w "company_name"))
    as [polished_text Hp].
  exists message. eexists. split; [exact Hg|]. split; [exact Hm|].
  cbv zeta.
  pose proof (process_job_accepted w Hf Hr Hc Hp Hg) as E. cbv zeta in E.
  split.
  - intros Hrend. rewrite E.
    apply andb_false_iff in Hrend. destruct Hrend as [-> | ->]; simpl;
      [reflexivity | rewrite orb_true_r; reflexivity].
  - intros Hrend Hzip. rewrite E.
    apply andb_true_iff in Hrend. destruct Hrend as [-> ->]. simpl.
    rewrite Hzip. reflexivity.
Qed.

End OrchestratorClaims.

Lemma process_job_rejects_witness :
  process_job (U := caseless_beyond_ascii)
    (example_world [("job_title", "  "); ("company_name", "Acme");
                    ("job_description", "Python developer")]%string
       (Some "resume"%string) (Some "cover"%string)) []
  = (Ok {| status := 400; body := Error (lit "All fields are required") |}, [])
  /\
  process_job (U := caseless_beyond_ascii)
    (example_world [("job_title", "Developer"); ("company_name", "Acme");
                    ("job_description", "Python developer")]%string
       None (Some "cover"%string)) []
  = (Ok {| status := 400;
           body := Error (lit "Resume template not found. Please upload a resume first.") |},
     [])
  /\
  process_job (U := caseless_beyond_ascii)
    (example_world [("job_title", "Developer"); ("company_name", "Acme");
                    ("job_description", "Python developer")]%string
       (Some "resume"%string) None) []
  = (Ok {| status := 400;
           body := Error (lit "Cover letter template not found. Please upload a cover letter first.") |},
     []).
Proof.
  split; [|split].
  - apply (proj1 (@process_job_rejects caseless_beyond_ascii _)).
    left. vm_compute. reflexivity.
  - apply (proj1 (proj2 (@process_job_rejects caseless_beyond_ascii _)));
      vm_compute; congruence.
  - apply (proj2 (proj2 (@process_job_rejects caseless_beyond_ascii _)));
      vm_compute; congruence.
Defined.

(** A request whose text generator is not running. *)
Definition offline_world : world :=
  example_world [("job_title", "Developer"); ("company_name", "Acme");
                 ("job_description", "Python developer")]%string
    (Some "SKILLS: Java, Python"%string) (Some "Dear team"%string).

Lemma cover_failure_degrades_witness :
  exists message polished : str,
    generate_cover_with_ollama (post offline_world) (lit "SKILLS: Java, Python")
      (lit "Dear team") (field offline_world "job_title")
      (field offline_world "company_name")
      (field offline_world "job_description") = Ok (PStr message) /\
    (message = lit "Error: Could not connect to Ollama. Please ensure Ollama is running on "
                 ++ OLLAMA_URL \/
     exists status_code : Z,
       message = lit "Error generating cover letter: Ollama API returned "
                   ++ str_of_int status_code) /\
    let keywords :=
      extract_keywords (U := caseless_beyond_ascii)
        (field offline_world "job_description") 10 in
    let calls :=
      [Ranked (field offline_world "job_description");
       Polished (lit "SKILLS: Java, Python") keywords;
       Posted OLLAMA_URL
         (cover_payload (lit "SKILLS: Java, Python") (lit "Dear team")
            (field offline_world "job_title")
            (field offline_world "company_name")
            (field offline_world "job_description"));
       Rendered (PStr polished) (resume_pdf_path offline_world)
         (lit "Tailored Resume - " ++ field offline_world "job_title");
       Rendered (PStr message) (cover_pdf_path offline_world)
         (lit "Cover Letter - " ++ field offline_world "job_title")] in
    let rendered :=
      (fpdf offline_world polished (resume_pdf_path offline_world)
         (lit "Tailored Resume - " ++ field offline_world "job_title")
       && fpdf offline_world message (cover_pdf_path offline_world)
            (lit "Cover Letter - " ++ field offline_world "job_title"))%bool in
    (rendered = false ->
     process_job (U := caseless_beyond_ascii) offline_world [] =
     (Ok {| status := 500; body := Error (lit "Failed to create PDF files") |},
      calls)) /\
    (rendered = true ->
     zip offline_world (zip_path offline_world) (zip_members offline_world)
       = Ok tt ->
     process_job (U := caseless_beyond_ascii) offline_world [] =
     (Ok {| status := 200;
            body := Success (resume_pdf_path offline_world)
                      (cover_pdf_path offline_world)
                      (zip_path offline_world) keywords |},
      calls ++ [Zipped (zip_path offline_world) (zip_members offline_world)])).
Proof.
  apply (@cover_failure_degrades caseless_beyond_ascii offline_world
           (lit "SKILLS: Java, Python") (lit "Dear team"));
    try (vm_compute; congruence); try (vm_compute; reflexivity).
Defined.

(** The run of [offline_world] from end to end: the cover letter is
    rendered from the error string and the package is made. *)
Example offline_world_run :
  process_job (U := caseless_beyond_ascii) offline_world [] =
  (Ok {| status := 200;
         body := Success (lit "uploads/tailored_resume_20240101_120000.pdf")
                   (lit "uploads/tailored_cover_20240101_120000.pdf")
                   (lit "uploads/job_package_20240101_120000.zip")
                   [lit "python"; lit "developer"] |},
   [Ranked (lit "Python developer");
    Polished (lit "SKILLS: Java, Python") [lit "python"; lit "developer"];
    Posted OLLAMA_URL
      (cover_payload (lit "SKILLS: Java, Python") (lit "Dear team")
         (lit "Developer") (lit "Acme") (lit "Python developer"));
    Rendered
      (PStr (tailored_banner (U := caseless_beyond_ascii)
               [lit "python"; lit "developer"] (lit "Developer") (lit "Acme")
               ++ lit "SKILLS: Python, Java"))
      (lit "uploads/tailored_resume_20240101_120000.pdf")
      (lit "Tailored Resume - Developer");
    Rendered
      (PStr (lit "Error: Could not connect to Ollama. Please ensure Ollama is running on http://localhost:11434/api/generate"))
      (lit "uploads/tailored_cover_20240101_120000.pdf")
      (lit "Cover Letter - Developer");
    Zipped (lit "uploads/job_package_20240101_120000.zip")
      [(lit "uploads/tailored_resume_20240101_120000.pdf",
        lit "tailored_resume_20240101_120000.pdf");
       (lit "uploads/tailored_cover_20240101_120000.pdf",
        lit "tailored_cover_20240101_120000.pdf")]]).
Proof. vm_compute. reflexivity. Qed.

(** * Further properties *)

(** ** Keyword ranker: what a keyword is *)

Lemma rep_class (p : cp -> bool) (k : cursor -> option cursor)
    (groups : list (nat * str)) (rest : str) :
  forall (least : nat) (left : option cp) (pos : nat) (c' : cursor),
    rep p least k left pos groups rest = Some c' ->
    exists c'' consumed,
      advanced {| c_left := left; c_pos := pos; c_rest := rest;
                  c_groups := groups |} c'' consumed /\
      least <= length consumed /\ forallb p consumed = true /\
      k c'' = Some c'.
Proof.
  induction rest as [|x rest IH]; intros least left pos c' H.
  - simpl in H. destruct least; [|discriminate].
    exists {| c_left := left; c_pos := pos; c_rest := [];
              c_groups := groups |}, [].
    repeat split; simpl; auto.
  - assert (Stop : (match least with
                    | O => k {| c_left := left; c_pos := pos;
                                c_rest := x :: rest; c_groups := groups |}
                    | S _ => None
                    end) = Some c' ->
                   exists c'' consumed,
                     advanced {| c_left := left; c_pos := pos;
                                 c_rest := x :: rest; c_groups := groups |}
                              c'' consumed /\
                     least <= length consumed /\
                     forallb p consumed = true /\ k c'' = Some c').
    { intros E. destruct least; [|discriminate].
      exists {| c_left := left; c_pos := pos; c_rest := x :: rest;
                c_groups := groups |}, [].
      repeat split; simpl; auto. }
    simpl in H. destruct (p x) eqn:Px; [|apply Stop, H].
    destruct (rep p (pred least) k (Some x) (S pos) groups rest) as [c0|] eqn:E;
      [|apply Stop, H].
    injection H as ->. apply IH in E.
    destruct E as (c'' & consumed & [R P] & L & F & K). simpl in R, P.
    exists c'', (x :: consumed). split; [split; simpl|].
    + rewrite R. reflexivity.
    + rewrite P. lia.
    + split; [simpl; lia|]. split; [simpl; rewrite Px, F; reflexivity | exact K].
Qed.

Lemma In_slice_to (A : Type) (k : Z) (l : list A) (x : A) :
  In x (slice_to k l) -> In x l.
Proof.
  assert (F : forall n, In x (firstn n l) -> In x l).
  { intros n H. rewrite <- (firstn_skipn n l). apply in_or_app. left.
    exact H. }
  unfold slice_to. destruct (0 <=? k)%Z; apply F.
Qed.

Lemma StronglySorted_app_inv (A : Type) (R : A -> A -> Prop) (l1 l2 : list A) :
  StronglySorted R (l1 ++ l2) ->
  forall x y, In x l1 -> In y l2 -> R x y.
Proof.
  induction l1 as [|a l1 IH]; simpl; intros S x y Hx Hy; [tauto|].
  apply StronglySorted_inv in S. destruct S as [S F].
  destruct Hx as [->|Hx]; [|eapply IH; eassumption].
  rewrite Forall_forall in F. apply F, in_or_app. right. exact Hy.
Qed.

Section RankerExtras.
Context {U : UnicodeData}.

(** A token of the tokenizer is a run of at least three ASCII
    letters. *)
Lemma word_pattern_span (left : option cp) (pos : nat) (rest : str)
    (m : re_match) :
  match_here word_pattern left pos rest = Some m ->
  3 <= length (m_span m) /\ forallb is_ascii_letter (m_span m) = true.
Proof.
  unfold match_here, word_pattern. simpl. intros H.
  destruct (xorb (word_at left) (word_at (hd_error rest))); [|discriminate].
  destruct (rep _ _ _ _ _ _ _) as [c|] eqn:E; [|discriminate].
  injection H as <-. simpl. apply rep_class in E.
  destruct E as (c'' & consumed & [R P] & L & F & K). simpl in R, P.
  destruct (xorb _ _) in K; [|discriminate]. injection K as ->.
  assert (Hs : firstn (c_pos c - pos) rest = consumed).
  { rewrite P, R.
    replace (pos + length consumed - pos) with (length consumed) by lia.
    rewrite firstn_app, firstn_all, Nat.sub_diag. simpl. apply app_nil_r. }
  rewrite Hs. split; assumption.
Qed.

Lemma extract_keywords_in (text : str) (top_k : Z) (w : str) :
  In w (extract_keywords text top_k) -> In w (surviving_words text).
Proof.
  rewrite extract_keywords_slice. intros H. apply In_slice_to in H.
  apply (ranked_is_ranking (surviving_words text)), H.
Qed.

(** X1: For a non-negative [top_k] the ranker returns at most [top_k]
    keywords. *)
Theorem extract_keywords_length (text : str) (top_k : Z) :
  (0 <= top_k)%Z ->
  (Z.of_nat (length (extract_keywords text top_k)) <= top_k)%Z.
Proof.
  intros H. rewrite extract_keywords_slice. unfold slice_to.
  destruct (0 <=? top_k)%Z eqn:E; [|apply Z.leb_gt in E; lia].
  pose proof (firstn_le_length (Z.to_nat top_k)
                (map fst (ranked (surviving_words text)))). lia.
Qed.

(** X2: Every keyword the ranker returns is a run of at least three ASCII
    letters that is not a stop word. *)
Theorem extract_keywords_words (text : str) (top_k : Z) (w : str) :
  In w (extract_keywords text top_k) ->
  3 <= length w /\ forallb is_ascii_letter w = true /\
  member w stop_words = false.
Proof.
  intros H. apply extract_keywords_in in H. unfold surviving_words in H.
  apply filter_In in H. destruct H as [H Hstop].
  apply negb_true_iff in Hstop. unfold re_findall in H.
  apply in_map_iff in H. destruct H as (m & <- & Hm).
  apply scan_in in Hm. destruct Hm as (left & pos & rest & Hm).
  apply word_pattern_span in Hm. tauto.
Qed.

(** X3: The cut at [top_k] never skips a more frequent word: when a keyword
    is returned, every surviving token that is strictly more frequent
    is returned too, and before it. *)
Theorem extract_keywords_monotone (text : str) (top_k : Z) (a b : str) :
  (0 <= top_k)%Z ->
  In b (extract_keywords text top_k) ->
  In a (surviving_words text) ->
  freq b (surviving_words text) < freq a (surviving_words text) ->
  exists l1 l2 l3, extract_keywords text top_k = l1 ++ a :: l2 ++ b :: l3.
Proof.
  intros Hk Hb Ha Hf. rewrite extract_keywords_slice in *.
  unfold slice_to in *.
  destruct (0 <=? top_k)%Z eqn:E; [|apply Z.leb_gt in E; lia].
  destruct (ranked_is_ranking (surviving_words text)) as (ND & Hin & SS).
  set (R := map fst (ranked (surviving_words text))) in *.
  set (n := Z.to_nat top_k) in *.
  assert (Hno : forall x y, ranks_before (surviving_words text) x y ->
                            x = b -> y = a -> False).
  { intros x y Hr -> ->. unfold ranks_before in Hr. lia. }
  assert (HaR : In a (firstn n R)).
  { apply Hin in Ha. rewrite <- (firstn_skipn n R) in Ha, SS.
    apply in_app_or in Ha. destruct Ha as [Ha|Ha]; [exact Ha|].
    exfalso. eapply Hno; [|reflexivity|reflexivity].
    eapply StronglySorted_app_inv; eassumption. }
  apply (StronglySorted_firstn n) in SS.
  apply in_split in Hb. destruct Hb as (p & l3 & Hb).
  rewrite Hb in HaR, SS. apply in_app_or in HaR.
  destruct HaR as [HaR|[HaR|HaR]].
  - apply in_split in HaR. destruct HaR as (l1 & l2 & ->).
    exists l1, l2, l3. rewrite Hb, <- app_assoc. reflexivity.
  - subst. lia.
  - exfalso. replace (p ++ b :: l3) with ((p ++ [b]) ++ l3) in SS
      by (rewrite <- app_assoc; reflexivity).
    eapply Hno; [|reflexivity|reflexivity].
    eapply StronglySorted_app_inv; [exact SS | | exact HaR].
    apply in_or_app. right. left. reflexivity.
Qed.

End RankerExtras.

(** ** Trimming and splitting *)

(** [s] neither starts nor ends with whitespace. *)
Definition trimmed (s : str) : Prop :=
  head_is_space s = false /\ head_is_space (rev s) = false.

Lemma lstrip_head (s : str) : head_is_space (lstrip s) = false.
Proof.
  induction s as [|c s IH]; simpl; [reflexivity|].
  destruct (isspace c) eqn:E; [exact IH | simpl; exact E].
Qed.

Lemma rstrip_prefix (t : str) : exists r, t = rstrip t ++ r.
Proof.
  unfold rstrip. destruct (lstrip_factor (rev t)) as [l H].
  exists (rev l). rewrite <- rev_app_distr, <- H, rev_involutive.
  reflexivity.
Qed.

Lemma strip_trimmed (s : str) : trimmed (strip s).
Proof.
  unfold trimmed, strip. split.
  - destruct (rstrip_prefix (lstrip s)) as [r H].
    pose proof (lstrip_head s) as Hh. rewrite H in Hh.
    destruct (rstrip (lstrip s)); [reflexivity | exact Hh].
  - unfold rstrip. rewrite rev_involutive. apply lstrip_head.
Qed.

Lemma strip_in (s : str) (c : cp) : In c (strip s) -> In c s.
Proof.
  intros H. destruct (strip_factor s) as (l & r & E). rewrite E.
  apply in_or_app. right. apply in_or_app. left. exact H.
Qed.

Definition not_space (c : cp) : bool := negb (isspace c).

Lemma filter_lstrip (s : str) :
  filter not_space (lstrip s) = filter not_space s.
Proof.
  induction s as [|c s IH]; simpl; [reflexivity|]. unfold not_space at 2.
  destruct (isspace c) eqn:E; simpl; [exact IH|].
  unfold not_space at 1. rewrite E. reflexivity.
Qed.

Lemma filter_rev (A : Type) (f : A -> bool) (l : list A) :
  filter f (rev l) = rev (filter f l).
Proof.
  induction l as [|x l IH]; simpl; [reflexivity|].
  rewrite filter_app, IH. simpl. destruct (f x); simpl;
    [reflexivity | apply app_nil_r].
Qed.

(** Trimming removes whitespace only. *)
Lemma filter_strip (s : str) :
  filter not_space (strip s) = filter not_space s.
Proof.
  unfold strip, rstrip.
  rewrite filter_rev, filter_lstrip, filter_rev, rev_involutive.
  apply filter_lstrip.
Qed.

Lemma strip_empty (s : str) :
  forallb isspace s = true -> strip s = [].
Proof.
  intros H. unfold strip.
  assert (L : lstrip s = []).
  { induction s as [|c s IH]; [reflexivity|]. simpl in *.
    apply andb_true_iff in H. destruct H as [-> H]. auto. }
  rewrite L. reflexivity.
Qed.

Lemma split_class_nonempty (p : cp -> bool) (s : str) :
  forall in_run, split_class p in_run s <> [].
Proof.
  induction s as [|c s IH]; intros in_run; simpl; [discriminate|].
  destruct (p c); [destruct in_run; [apply IH | discriminate]|].
  specialize (IH false). destruct (split_class p false s);
    [congruence | discriminate].
Qed.

Lemma split_class_in_run (p : cp -> bool) (s : str) :
  split_class p true s = split_class p false (skipn (run_len p s) s).
Proof.
  induction s as [|c s IH]; simpl; [reflexivity|].
  destruct (p c) eqn:E; simpl; [exact IH | rewrite E; reflexivity].
Qed.

(** No piece holds a code point of the class. *)
Lemma split_class_pieces (p : cp -> bool) (s : str) :
  forall in_run piece c,
    In piece (split_class p in_run s) -> In c piece -> p c = false.
Proof.
  induction s as [|x s IH]; intros in_run piece c Hp Hc; simpl in Hp.
  - destruct Hp as [<-|[]]. destruct Hc.
  - destruct (p x) eqn:E.
    + destruct in_run; [eapply IH; eassumption|].
      destruct Hp as [<-|Hp]; [destruct Hc | eapply IH; eassumption].
    + specialize (IH false). destruct (split_class p false s) as [|q qs];
        [destruct Hp|].
      destruct Hp as [<-|Hp].
      * destruct Hc as [<-|Hc]; [exact E|].
        eapply IH; [left; reflexivity | exact Hc].
      * eapply IH; [right; exact Hp | exact Hc].
Qed.

Section SplitFacts.
Context {U : UnicodeData}.

Lemma between_scan_rep (p : cp -> bool) (n : nat) :
  forall (s : str) (left : option cp) (pos : nat),
    length s <= n ->
    between (scan (Rep p 1) left pos 0 s) pos s = split_class p false s.
Proof.
  induction n as [|n IH]; intros s left pos Hn.
  - destruct s; [reflexivity | simpl in Hn; lia].
  - destruct s as [|c s]; [reflexivity|].
    pose proof (match_here_run p left pos (c :: s)) as Hm.
    simpl in Hn. unfold scan; fold scan.
    simpl run_len in Hm. simpl split_class.
    destruct (p c) eqn:E.
    + destruct Hm as (m & -> & Hs & He).
      destruct (scan_skip (Rep p 1) s (m_end m - pos - 1) (Some c) (S pos))
        as [left' ->].
      replace (m_end m - pos - 1) with (run_len p s) by lia.
      unfold between; fold between. rewrite Hs, Nat.sub_diag.
      replace (m_end m - pos) with (S (run_len p s)) by lia.
      replace (m_end m) with (S pos + run_len p s) by lia.
      simpl firstn. simpl skipn.
      rewrite IH by (rewrite length_skipn; lia).
      rewrite split_class_in_run. reflexivity.
    + rewrite Hm. rewrite between_cons by apply scan_starts.
      rewrite IH by lia. reflexivity.
Qed.

(** [re.split] on a repeated class agrees with the direct reading. *)
Lemma re_split_rep (p : cp -> bool) (s : str) :
  re_split (Rep p 1) s = split_class p false s.
Proof.
  unfold re_split, finditer. apply (between_scan_rep p (n := length s)). lia.
Qed.

End SplitFacts.

(** ** Section rewriter: the items and their order *)

Lemma sorted_desc_descending (A : Type) (key : A -> nat) (l : list A) :
  StronglySorted (fun a b => key b <= key a) (sorted_desc key l).
Proof.
  assert (T : StronglySorted (fun _ _ : A => True) l).
  { induction l; constructor; [assumption|]. apply Forall_forall. auto. }
  apply (sorted_desc_sorted key) in T. revert T.
  apply StronglySorted_impl_in. intros a b _ _ [H|[H _]]; lia.
Qed.

Lemma sorted_desc_fixed (A : Type) (key : A -> nat) (l : list A) :
  StronglySorted (fun a b => key b <= key a) l -> sorted_desc key l = l.
Proof.
  induction l as [|x l IH]; intros S; [reflexivity|].
  apply StronglySorted_inv in S. destruct S as [S F]. simpl.
  rewrite IH by exact S. destruct l as [|y l]; [reflexivity|]. simpl.
  inversion F as [|? ? Hy _]; subst.
  destruct (key x <? key y) eqn:E; [apply Nat.ltb_lt in E; lia | reflexivity].
Qed.

Section RewriterExtras.
Context {U : UnicodeData}.

(** X4: Every item the rewriter takes from a section is non-empty, has no
    whitespace at either end and holds no comma, semicolon, bullet or
    newline. *)
Theorem split_items_clean (section_content item : str) :
  In item (split_items section_content) ->
  item <> [] /\ trimmed item /\
  forall c, In c item -> is_delimiter c = false.
Proof.
  unfold split_items, item_delimiters. rewrite re_split_rep.
  intros H. apply filter_In in H. destruct H as [H Hne].
  apply in_map_iff in H. destruct H as (piece & <- & Hp).
  split; [|split].
  - destruct (strip piece); [discriminate Hne | discriminate].
  - apply strip_trimmed.
  - intros c Hc. apply strip_in in Hc.
    eapply (@split_class_pieces is_delimiter); [exact Hp | exact Hc].
Qed.

(** X5: The items the rewriter writes back are the items of the section,
    each as often as it occurs there, in descending order of score. *)
Theorem rewrite_section_descending (keywords : list str)
    (polished_text : str) (m : re_match) :
  exists written : list str,
    Permutation (split_items (group m 2)) written /\
    StronglySorted
      (fun a b => item_score keywords b <= item_score keywords a) written /\
    rewrite_section (PList (map PStr keywords)) polished_text m =
    Ok (match split_items (group m 2) with
        | [] => polished_text
        | _ :: _ =>
            str_replace (group m 0)
              (group m 1 ++ lit ": " ++ join (lit ", ") written)
              polished_text
        end).
Proof.
  exists (reorder keywords (split_items (group m 2))).
  split; [apply sorted_desc_perm|]. split.
  - apply sorted_desc_descending.
  - apply rewrite_section_str.
Qed.

(** X6: Items that already are in descending order of score, in particular
    items that all have the same score (no keyword occurs in any of
    them), are written back in the order they had. *)
Theorem rewrite_section_keeps_order (keywords : list str)
    (polished_text : str) (m : re_match) :
  split_items (group m 2) <> [] ->
  StronglySorted
    (fun a b => item_score keywords b <= item_score keywords a)
    (split_items (group m 2)) ->
  rewrite_section (PList (map PStr keywords)) polished_text m =
  Ok (str_replace (group m 0)
        (group m 1 ++ lit ": " ++ join (lit ", ") (split_items (group m 2)))
        polished_text).
Proof.
  intros Hne Hs. rewrite rewrite_section_str. unfold reorder.
  rewrite sorted_desc_fixed by exact Hs.
  destruct (split_items (group m 2)); [congruence | reflexivity].
Qed.

(** X7: On strings the rewriter never takes the [except] branch: it returns
    a string that begins with the banner made of the upper-cased job
    title and company name and the first five keywords. *)
Theorem polish_resume_banner (resume_text : str) (keywords : list str)
    (job_title company_name : str) :
  exists polished_text,
    polish_resume (PStr resume_text) (PList (map PStr keywords))
      (PStr job_title) (PStr company_name)
    = Ok (PStr ([LF; LF] ++ lit "TAILORED FOR " ++ str_upper job_title
                  ++ lit " AT " ++ str_upper company_name ++ lit ": "
                  ++ join (lit ", ") (firstn 5 keywords) ++ [LF]
                  ++ repeat 61%N 80 ++ [LF] ++ polished_text)).
Proof.
  destruct (polish_resume_typed resume_text keywords job_title company_name)
    as [polished H].
  exists polished. rewrite H. unfold tailored_banner.
  repeat rewrite <- app_assoc. reflexivity.
Qed.

End RewriterExtras.

(** ** Text normalizer: what the canonical text holds *)

Definition not_nul (c : cp) : bool := negb (N.eqb c NUL).

Definition replacement_to_bullet (c : cp) : cp :=
  if N.eqb c REPLACEMENT then BULLET else c.

Lemma collapse_in (s : str) :
  forall in_run c,
    In c (collapse in_run s) -> c = SPACE \/ (In c s /\ isspace c = false).
Proof.
  induction s as [|x s IH]; intros in_run c H; simpl in H; [tauto|].
  destruct (isspace x) eqn:E.
  - destruct in_run; [|destruct H as [<-|H]; [left; reflexivity|]];
      apply IH in H; simpl; tauto.
  - destruct H as [<-|H]; [right; simpl; auto|].
    apply IH in H. simpl. tauto.
Qed.

Lemma filter_collapse (s : str) :
  forall in_run, filter not_space (collapse in_run s) = filter not_space s.
Proof.
  induction s as [|x s IH]; intros in_run; simpl; [reflexivity|].
  unfold not_space at 2. destruct (isspace x) eqn:E; simpl.
  - destruct in_run; simpl; apply IH.
  - unfold not_space at 1. rewrite E. simpl. f_equal. apply IH.
Qed.

Lemma filter_space_bullets (s : str) :
  filter not_space (space_bullets s) = filter not_space s.
Proof.
  induction s as [|x s IH]; [reflexivity|].
  rewrite space_bullets_cons, filter_app, IH.
  destruct (N.eqb BULLET x) eqn:E.
  - apply N.eqb_eq in E. subst x. reflexivity.
  - simpl. destruct (not_space x); reflexivity.
Qed.

Lemma flat_map_drop (A : Type) (f : A -> bool) (s : list A) :
  flat_map (fun x => if f x then [] else [x]) s =
  filter (fun x => negb (f x)) s.
Proof.
  induction s as [|x s IH]; [reflexivity|]. cbn [flat_map filter].
  rewrite IH. destruct (f x); reflexivity.
Qed.

Lemma flat_map_subst (A : Type) (f : A -> bool) (y : A) (s : list A) :
  flat_map (fun x => if f x then [y] else [x]) s =
  map (fun x => if f x then y else x) s.
Proof.
  induction s as [|x s IH]; [reflexivity|]. cbn [flat_map map].
  rewrite IH. destruct (f x); reflexivity.
Qed.

Lemma remove_nul (s : str) : str_replace [NUL] [] s = filter not_nul s.
Proof.
  rewrite str_replace_char, flat_map_drop. apply filter_ext.
  intros x. unfold not_nul. rewrite N.eqb_sym. reflexivity.
Qed.

Lemma replace_replacement (s : str) :
  str_replace [REPLACEMENT] [BULLET] s = map replacement_to_bullet s.
Proof.
  rewrite str_replace_char, flat_map_subst. apply map_ext.
  intros x. unfold replacement_to_bullet. rewrite N.eqb_sym. reflexivity.
Qed.

Section NormalizerExtras.
Context {U : UnicodeData}.

Lemma normalize_direct (text : str) :
  normalize text =
  strip (space_bullets
           (collapse false (filter not_nul (map replacement_to_bullet text)))).
Proof.
  unfold normalize.
  rewrite str_replace_char, re_sub_whitespace, remove_nul,
    replace_replacement.
  reflexivity.
Qed.

(** X9: The canonical text holds no NUL, no replacement character and no
    newline, and it neither starts nor ends with whitespace. *)
Theorem normalize_clean (text : str) :
  (forall c, In c (normalize text) ->
             c <> NUL /\ c <> REPLACEMENT /\ c <> LF) /\
  trimmed (normalize text).
Proof.
  rewrite normalize_direct. split; [|apply strip_trimmed].
  intros c H. apply strip_in, space_bullets_in in H.
  destruct H as [H | ->]; [|repeat split; discriminate].
  apply collapse_in in H. destruct H as [-> | [H Hs]];
    [repeat split; discriminate|].
  apply filter_In in H. destruct H as [H Hn].
  apply in_map_iff in H. destruct H as (x & Hx & _).
  repeat split.
  - intros ->. discriminate.
  - intros ->. unfold replacement_to_bullet in Hx.
    destruct (N.eqb x REPLACEMENT) eqn:E; [discriminate|].
    apply N.eqb_neq in E. congruence.
  - intros ->. discriminate.
Qed.

(** X10: The normalizer touches nothing but whitespace, NULs and replacement
    characters: the code points of the canonical text that are not
    whitespace are those of the raw text, in order, with each
    replacement character turned into a bullet and the NULs removed. *)
Theorem normalize_keeps_content (text : str) :
  filter not_space (normalize text) =
  filter not_space (filter not_nul (map replacement_to_bullet text)).
Proof.
  rewrite normalize_direct, filter_strip, filter_space_bullets.
  apply filter_collapse.
Qed.

End NormalizerExtras.

(** ** Cover letter and orchestrator: every way a request can end *)

Lemma get_of_raises (v : pyval) (key : str) (default : pyval) (e : exn) :
  get_of v key default = Raise e -> is_Exception e = true.
Proof.
  destruct v; simpl; try (intros H; injection H as <-; reflexivity).
  destruct (lookup key fields); discriminate.
Qed.

(** X11: Whatever the HTTP call does, the cover-letter step gives the
    "response" field of a 200 answer whose body is a JSON object (the
    empty string when the field is missing) or a string that starts
    with "Error", or it lets through an exception that is no
    [Exception]. *)
Theorem generate_cover_outcomes (post : str -> payload -> post_outcome)
    (resume_text cover_template job_title company_name job_description : str) :
  match generate_cover_with_ollama post resume_text cover_template job_title
          company_name job_description with
  | Ok v =>
      (exists text fields,
          post OLLAMA_URL
            (cover_payload resume_text cover_template job_title company_name
               job_description)
          = Responded 200 text (Ok (PDict fields)) /\
          v = match lookup (lit "response") fields with
              | Some x => x
              | None => PStr []
              end) \/
      (exists rest, v = PStr (lit "Error" ++ rest))
  | Raise e => is_Exception e = false
  end.
Proof.
  unfold generate_cover_with_ollama.
  destruct (post OLLAMA_URL _) as [e|status_code text json].
  - destruct (is_RequestException e);
      [right; eexists; reflexivity|].
    destruct (is_Exception e) eqn:E; [right; eexists; reflexivity | exact E].
  - destruct (status_code =? 200)%Z eqn:Es;
      [|right; eexists; reflexivity].
    apply Z.eqb_eq in Es. subst status_code.
    destruct json as [v|e]; simpl.
    + destruct v; simpl;
        try (right; eexists; reflexivity).
      destruct (lookup (lit "response") fields) as [x|] eqn:El; simpl;
        left; exists text, fields; rewrite El; split; reflexivity.
    + destruct (is_RequestException e);
        [right; eexists; reflexivity|].
      destruct (is_Exception e) eqn:E; [right; eexists; reflexivity | exact E].
Qed.

Section OrchestratorExtras.
Context {U : UnicodeData}.

(** The monadic [process_job] is the run written out case by case. *)
Lemma process_job_is_direct (w : world) :
  process_job w [] = process_job_direct w.
Proof.
  unfold process_job_direct, failed, field, zip_members, resume_pdf_path,
    cover_pdf_path, zip_path.
  unfold process_job, try_except, path_exists, read_text. cbv zeta.
  destruct (all_nonempty _); cbn [negb]; [|reflexivity].
  destruct (files w resume_text_path) as [[resume_text|e]|];
    cbn [negb]; [| |reflexivity].
  - destruct (files w cover_text_path) as [[cover_template|e]|];
      cbn [negb]; [| |reflexivity].
    + cbv beta iota zeta delta [bindM lift emit ret create_pdf].
      destruct (polish_resume _ _ _ _) as [polished|e]; cbv beta iota;
        [|destruct (is_Exception e); reflexivity].
      destruct (generate_cover_with_ollama _ _ _ _ _ _) as [generated|e];
        cbv beta iota; [|destruct (is_Exception e); reflexivity].
      match goal with
      | |- context [(negb ?a || negb ?b)%bool] => destruct a; destruct b
      end; cbn [negb orb]; try reflexivity.
      match goal with
      | |- context [zip w ?p ?ms] => destruct (zip w p ms) as [[]|e]
      end; [reflexivity|].
      destruct (is_Exception e); reflexivity.
    + cbv beta iota zeta delta [bindM lift emit ret].
      destruct (is_Exception e); reflexivity.
  - destruct (files w cover_text_path) as [rc|]; cbn [negb]; [|reflexivity].
    cbv beta iota zeta delta [bindM lift emit ret].
    destruct (is_Exception e); reflexivity.
Qed.

(** X12: A request that returns is answered 200, 400 or 500, and the only
    exceptions that leave [process_job] are those that are no
    [Exception]: every [Exception] becomes a 500 answer. *)
Theorem process_job_answers (w : world) :
  match fst (process_job w []) with
  | Ok r => status r = 200%Z \/ status r = 400%Z \/ status r = 500%Z
  | Raise e => is_Exception e = false
  end.
Proof.
  assert (F : forall e t,
             match fst (failed e t) with
             | Ok r => status r = 200%Z \/ status r = 400%Z \/ status r = 500%Z
             | Raise e => is_Exception e = false
             end).
  { intros e t. unfold failed. destruct (is_Exception e) eqn:E; simpl; auto. }
  rewrite process_job_is_direct. unfold process_job_direct. cbv zeta.
  destruct (negb _); [simpl; auto|].
  destruct (files w resume_text_path) as [[resume_text|e]|];
    destruct (files w cover_text_path) as [[cover_template|e']|];
    try (simpl; auto; fail); try apply F.
  destruct (polish_resume _ _ _ _); [|apply F].
  destruct (generate_cover_with_ollama _ _ _ _ _ _); [|apply F].
  destruct (negb _ || negb _)%bool; [simpl; auto|].
  destruct (zip w _ _); [simpl; auto | apply F].
Qed.

(** X13: A 200 answer is given only when all three fields are present, both
    templates were read, both documents were rendered successfully and
    the archive was written; the calls made are then exactly ranking,
    rewriting, text generation, the two renderings and the bundling,
    and the keywords of the answer are those of the ranker for
    [top_k = 10]. *)
Theorem process_job_success (w : world) (r : response) (t : list event) :
  process_job w [] = (Ok r, t) ->
  status r = 200%Z ->
  exists resume_text cover_template polished generated : str,
    field w "job_title" <> [] /\ field w "company_name" <> [] /\
    field w "job_description" <> [] /\
    files w resume_text_path = Some (Ok resume_text) /\
    files w cover_text_path = Some (Ok cover_template) /\
    fpdf w polished (resume_pdf_path w)
      (lit "Tailored Resume - " ++ field w "job_title") = true /\
    fpdf w generated (cover_pdf_path w)
      (lit "Cover Letter - " ++ field w "job_title") = true /\
    zip w (zip_path w) (zip_members w) = Ok tt /\
    body r = Success (resume_pdf_path w) (cover_pdf_path w) (zip_path w)
               (extract_keywords (field w "job_description") 10) /\
    t = [Ranked (field w "job_description");
         Polished resume_text
           (extract_keywords (field w "job_description") 10);
         Posted OLLAMA_URL
           (cover_payload resume_text cover_template (field w "job_title")
              (field w "company_name") (field w "job_description"));
         Rendered (PStr polished) (resume_pdf_path w)
           (lit "Tailored Resume - " ++ field w "job_title");
         Rendered (PStr generated) (cover_pdf_path w)
           (lit "Cover Letter - " ++ field w "job_title");
         Zipped (zip_path w) (zip_members w)].
Proof.
  assert (F : forall e t', failed e t' = (Ok r, t) -> status r = 200%Z -> False).
  { intros e t' H Hs. unfold failed in H. destruct (is_Exception e);
      [|discriminate]. injection H as <- _. discriminate. }
  rewrite process_job_is_direct. unfold process_job_direct. cbv zeta.
  destruct (all_nonempty _) eqn:Hf; cbn [negb];
    [|intros H Hs; injection H as <- _; discriminate].
  apply all_nonempty_3 in Hf. destruct Hf as (H1 & H2 & H3).
  destruct (files w resume_text_path) as [[resume_text|e]|];
    destruct (files w cover_text_path) as [[cover_template|e']|];
    try (intros H Hs; injection H as <- _; discriminate);
    try (intros H Hs; exfalso; eapply F; eassumption).
  destruct (polish_resume _ _ _ _) as [polished|e];
    [|intros H Hs; exfalso; eapply F; eassumption].
  destruct (generate_cover_with_ollama _ _ _ _ _ _) as [generated|e];
    [|intros H Hs; exfalso; eapply F; eassumption].
  destruct polished as [| |p| |]; cbn [negb orb];
    try (intros H Hs; injection H as <- _; discriminate).
  destruct (fpdf w p _ _) eqn:Ep; cbn [negb orb];
    [|intros H Hs; injection H as <- _; discriminate].
  destruct generated as [| |g| |]; cbn [negb orb];
    try (intros H Hs; injection H as <- _; discriminate).
  destruct (fpdf w g _ _) eqn:Eg; cbn [negb orb];
    [|intros H Hs; injection H as <- _; discriminate].
  destruct (zip w _ _) as [[]|e] eqn:Ez;
    [|intros H Hs; exfalso; eapply F; eassumption].
  intros H _. injection H as <- <-.
  exists resume_text, cover_template, p, g. repeat split; assumption.
Qed.

(** X14: A field that is missing from the form or holds whitespace only
    counts as empty: the request is answered 400 "All fields are
    required" and no call is made. *)
Theorem blank_field_rejected (w : world) (name : string) :
  In name ["job_title"; "company_name"; "job_description"]%string ->
  forallb isspace (form_get (form w) (lit name)) = true ->
  process_job w [] =
  (Ok {| status := 400; body := Error (lit "All fields are required") |}, []).
Proof.
  intros Hn Hb. apply strip_empty in Hb.
  rewrite process_job_is_direct. unfold process_job_direct. cbv zeta.
  assert (Hf : all_nonempty [field w "job_title"; field w "company_name";
                             field w "job_description"] = false).
  { destruct (all_nonempty _) eqn:E; [|reflexivity].
    apply all_nonempty_3 in E. destruct E as (E1 & E2 & E3). unfold field in *.
    destruct Hn as [<-|[<-|[<-|[]]]]; congruence. }
  rewrite Hf. reflexivity.
Qed.

(** X15: A template that exists but cannot be read (the read raises an
    [Exception]) ends the request with 500 "Processing failed: ..."
    before any call is made. *)
Theorem unreadable_template (w : world) (e : exn) :
  field w "job_title" <> [] -> field w "company_name" <> [] ->
  field w "job_description" <> [] ->
  (files w resume_text_path = Some (Raise e) /\
   files w cover_text_path <> None) \/
  ((exists resume_text, files w resume_text_path = Some (Ok resume_text)) /\
   files w cover_text_path = Some (Raise e)) ->
  is_Exception e = true ->
  process_job w [] =
  (Ok {| status := 500;
         body := Error (lit "Processing failed: " ++ exn_str e) |}, []).
Proof.
  intros H1 H2 H3 Hfiles He.
  pose proof (proj2 (all_nonempty_3 _ _ _) (conj H1 (conj H2 H3))) as Hf.
  rewrite process_job_is_direct. unfold process_job_direct, failed. cbv zeta.
  rewrite Hf. cbn [negb].
  destruct Hfiles as [[-> Hc] | [[resume_text ->] ->]].
  - destruct (files w cover_text_path); [|congruence].
    rewrite He. reflexivity.
  - rewrite He. reflexivity.
Qed.

(** X16: When the text generator answers 200 with a JSON object whose
    "response" is a string, the cover letter is rendered from that
    string. *)
Theorem generated_cover_rendered (w : world)
    (resume_text cover_template text generated : str)
    (fields : list (str * pyval)) :
  field w "job_title" <> [] -> field w "company_name" <> [] ->
  field w "job_description" <> [] ->
  files w resume_text_path = Some (Ok resume_text) ->
  files w cover_text_path = Some (Ok cover_template) ->
  post w OLLAMA_URL
    (cover_payload resume_text cover_template (field w "job_title")
       (field w "company_name") (field w "job_description"))
  = Responded 200 text (Ok (PDict fields)) ->
  lookup (lit "response") fields = Some (PStr generated) ->
  In (Rendered (PStr generated) (cover_pdf_path w)
        (lit "Cover Letter - " ++ field w "job_title"))
     (snd (process_job w [])).
Proof.
  intros H1 H2 H3 Hr Hc Hpost Hl.
  pose proof (proj2 (all_nonempty_3 _ _ _) (conj H1 (conj H2 H3))) as Hf.
  destruct (polish_resume_typed resume_text
              (extract_keywords (field w "job_description") 10)
              (field w "job_title") (field w "company_name"))
    as [polished_text Hp].
  assert (Hg : generate_cover_with_ollama (post w) resume_text cover_template
                 (field w "job_title") (field w "company_name")
                 (field w "job_description") = Ok (PStr generated)).
  { unfold generate_cover_with_ollama. rewrite Hpost. simpl. rewrite Hl.
    reflexivity. }
  rewrite (process_job_accepted w Hf Hr Hc Hp Hg). cbv zeta.
  destruct (negb _ || negb _)%bool; [simpl; auto 10|].
  destruct (zip w _ _) as [[]|e]; [|destruct (is_Exception e)];
    simpl; auto 10.
Qed.

End OrchestratorExtras.

(** ** Upload checks and template ingestion *)

Lemma contains_char (c : cp) (s : str) :
  contains [c] s = true <-> In c s.
Proof.
  induction s as [|x s IH]; simpl.
  - split; [discriminate | tauto].
  - rewrite orb_true_iff, andb_true_r, N.eqb_eq, IH.
    split; intros [H|H]; auto.
Qed.

Lemma last_occurrence (x : cp) (l : str) :
  In x l -> exists l1 l2, l = l1 ++ x :: l2 /\ ~ In x l2.
Proof.
  induction l as [|a l IH]; [intros []|]. intros H.
  destruct (in_dec N.eq_dec x l) as [Hl|Hl].
  - destruct (IH Hl) as (l1 & l2 & -> & H2). exists (a :: l1), l2. auto.
  - destruct H as [->|H]; [|tauto]. exists [], l. auto.
Qed.

Lemma rsplit1_none (sep : cp) (s : str) :
  ~ In sep s -> rsplit1 sep s = [s].
Proof.
  induction s as [|c s IH]; intros H; [reflexivity|]. simpl.
  rewrite IH by (intros H'; apply H; right; exact H').
  destruct (N.eqb c sep) eqn:E; [|reflexivity].
  apply N.eqb_eq in E. exfalso. apply H. left. exact E.
Qed.

Lemma rsplit1_last (sep : cp) (stem ext : str) :
  ~ In sep ext -> rsplit1 sep (stem ++ sep :: ext) = [stem; ext].
Proof.
  intros H. induction stem as [|c stem IH]; simpl.
  - rewrite rsplit1_none by exact H. rewrite N.eqb_refl. reflexivity.
  - rewrite IH. reflexivity.
Qed.

Lemma is_empty_false (s : str) : s <> [] -> is_empty s = false.
Proof. destruct s; [congruence | reflexivity]. Qed.

Section UploadExtras.
Context {U : UnicodeData}.

(** X17: A file name is allowed exactly when it has a dot and what follows
    its last dot is "pdf" in lower case: "cv.PDF" and "a.exe.pdf" are
    allowed, "pdf" and "a.pdf.exe" are not. *)
Theorem allowed_file_spec (name : str) :
  allowed_file name = true <->
  exists stem ext,
    name = stem ++ 46%N :: ext /\ ~ In 46%N ext /\ str_lower ext = lit "pdf".
Proof.
  unfold allowed_file. rewrite andb_true_iff.
  change (lit ".") with [46%N]. rewrite contains_char. split.
  - intros [Hdot H]. apply last_occurrence in Hdot.
    destruct Hdot as (stem & ext & -> & Hext).
    rewrite rsplit1_last in H by exact Hext. simpl in H.
    rewrite orb_false_r in H. apply str_eqb_eq in H.
    exists stem, ext. auto.
  - intros (stem & ext & -> & Hext & Hl). split.
    + apply in_or_app. right. left. reflexivity.
    + rewrite rsplit1_last by exact Hext. simpl. rewrite Hl. reflexivity.
Qed.

(** X18: A résumé of a type that is not allowed ends the upload at once:
    400 "Invalid file type for resume", nothing is saved, and the cover
    letter sent with it is not looked at. *)
Theorem upload_invalid_resume (req : upload_request) (st : store)
    (f : upload) :
  resume_file req = Some f -> filename f <> [] ->
  allowed_file (filename f) = false ->
  upload_templates req st =
  (Ok {| upload_status := 400;
         upload_body_of := UploadError (lit "Invalid file type for resume") |},
   st).
Proof.
  intros Hf Hn Ha. unfold upload_templates, upload_block.
  rewrite Hf, (is_empty_false Hn), Ha. reflexivity.
Qed.


(** X20: An upload without any named file is answered 400 "No valid files
    uploaded" and changes nothing. *)
Theorem upload_nothing (req : upload_request) (st : store) :
  no_file (resume_file req) -> no_file (cover_file req) ->
  upload_templates req st =
  (Ok {| upload_status := 400;
         upload_body_of := UploadError (lit "No valid files uploaded") |},
   st).
Proof.
  unfold no_file, upload_templates, upload_block.
  destruct (resume_file req) as [fr|], (cover_file req) as [fc|];
    intros Hr Hc; try rewrite Hr; try rewrite Hc; reflexivity.
Qed.



End UploadExtras.

(** ** Document renderer: which lines are headings *)

Lemma rep_finds (p : cp -> bool) (k : cursor -> option cursor)
    (groups : list (nat * str)) (tail : str) (body : str) :
  forall (least : nat) (left : option cp) (pos : nat),
    forallb p body = true ->
    least <= length body ->
    match tail with
    | x :: _ => p x = false
    | [] => True
    end ->
    (forall l, k {| c_left := l; c_pos := pos + length body; c_rest := tail;
                    c_groups := groups |} <> None) ->
    rep p least k left pos groups (body ++ tail) <> None.
Proof.
  induction body as [|b body IH]; intros least left pos Hb Hl Ht Hk.
  - simpl in *. assert (least = 0) by lia. subst least.
    specialize (Hk left). rewrite Nat.add_0_r in Hk.
    destruct tail as [|x tail]; simpl; [exact Hk|]. rewrite Ht. exact Hk.
  - simpl in Hb. apply andb_true_iff in Hb. destruct Hb as [Hb Hbody].
    simpl. rewrite Hb.
    destruct (rep p (pred least) k (Some b) (S pos) groups (body ++ tail))
      eqn:E; [discriminate|].
    exfalso. revert E. apply IH; try assumption.
    + simpl in Hl. lia.
    + intros l. replace (S pos + length body) with (pos + length (b :: body))
        by (simpl; lia).
      apply Hk.
Qed.

Section RendererExtras.
Context {U : UnicodeData}.

(** The heading pattern matches exactly a non-empty run of upper-case
    ASCII letters and whitespace followed by a colon that ends the
    string (a newline may follow the colon). *)
Lemma is_heading_iff (s : str) :
  is_heading s = true <->
  exists label,
    label <> [] /\ forallb upper_or_space label = true /\
    (s = label ++ [58%N] \/ s = label ++ [58%N; LF]).
Proof.
  unfold is_heading, heading_pattern. cbn [run c_left c_pos c_rest c_groups].
  split.
  - destruct (rep _ _ _ _ _ _ _) as [c|] eqn:E; [|discriminate]. intros _.
    apply rep_class in E.
    destruct E as (c'' & label & [R P] & L & F & K). simpl in R, P.
    exists label. split; [destruct label; [simpl in L; lia | discriminate]|].
    split; [exact F|]. cbn [run] in K.
    destruct (c_rest c'') as [|x rest] eqn:Er; [discriminate|].
    destruct (N.eqb 58 x) eqn:Ex; [|discriminate].
    apply N.eqb_eq in Ex. subst x. unfold at_dollar in K.
    cbn [advance c_rest] in K.
    destruct rest as [|y [|z rest]]; [left; exact R | | discriminate].
    destruct (N.eqb y LF) eqn:Ey; [|discriminate].
    apply N.eqb_eq in Ey. subst y. right. exact R.
  - intros (label & Hne & Hl & Hs).
    assert (H : rep upper_or_space 1
                  (fun c => match c_rest c with
                            | [] => None
                            | x :: rest =>
                                if N.eqb 58 x then at_dollar (advance c x rest)
                                else None
                            end)
                  None 0 [] s <> None).
    { destruct Hs as [-> | ->]; apply rep_finds; try assumption;
        try reflexivity;
        try (destruct label; [congruence | simpl; lia]);
        intros l; cbn [c_rest advance]; rewrite N.eqb_refl;
        unfold at_dollar; cbn [advance c_rest]; try rewrite N.eqb_refl;
        discriminate. }
    destruct (rep _ _ _ _ _ _ _); [reflexivity | congruence].
Qed.

Lemma filter_not_space_nil (s : str) :
  filter not_space s = [] -> forallb isspace s = true.
Proof.
  induction s as [|c s IH]; simpl; [reflexivity|]. unfold not_space at 1.
  destruct (isspace c); simpl; [exact IH | discriminate].
Qed.

(** X23: What [create_pdf] does with one line of the text.  A line of
    whitespace only is skipped.  A line that, stripped, is a non-empty
    run of upper-case ASCII letters and whitespace followed by a final
    colon ("TECHNICAL SKILLS:") is printed in bold as one cell.  Every
    other line ("Skills:", ":", "SKILLS: Java") is printed as a
    multi-line cell in the regular font. *)
Theorem line_calls_cases (line : str) :
  (forallb isspace line = true /\ line_calls line = []) \/
  (exists label,
      label <> [] /\ forallb upper_or_space label = true /\
      strip line = label ++ [58%N] /\
      line_calls line =
      [SetFont "B" 12; Cell 200 8 (strip line) ""; SetFont "" 12; Ln 2]) \/
  (forallb isspace line = false /\
   (forall label, label <> [] -> forallb upper_or_space label = true ->
                  strip line <> label ++ [58%N]) /\
   line_calls line = [MultiCell 0 8 (strip line); Ln 2]).
Proof.
  unfold line_calls.
  destruct (forallb isspace line) eqn:Hs.
  { left. split; [reflexivity|]. rewrite (strip_empty _ Hs). reflexivity. }
  right.
  assert (Hne : is_empty (strip line) = false).
  { destruct (strip line) eqn:E; [|reflexivity]. exfalso.
    pose proof (filter_strip line) as F. rewrite E in F. simpl in F.
    symmetry in F. apply filter_not_space_nil in F. congruence. }
  rewrite Hne. cbn [negb].
  destruct (is_heading (strip line)) eqn:Hh.
  - left. apply is_heading_iff in Hh. destruct Hh as (label & Hl & Hu & Hc).
    exists label. split; [exact Hl|]. split; [exact Hu|].
    destruct Hc as [Hc|Hc]; [split; [exact Hc | reflexivity]|].
    exfalso. destruct (strip_trimmed line) as [_ T]. rewrite Hc in T.
    rewrite rev_app_distr in T. simpl in T. vm_compute in T. discriminate.
  - right. split; [reflexivity|]. split; [|reflexivity].
    intros label Hl Hu Hc.
    assert (is_heading (strip line) = true); [|congruence].
    apply is_heading_iff. exists label. auto.
Qed.

End RendererExtras.

(** ** Section rewriter: what rewriting never adds *)

Lemma rep_groups (p : cp -> bool) (k : cursor -> option cursor)
    (groups : list (nat * str)) (rest : str) :
  forall (least : nat) (left : option cp) (pos : nat) (c' : cursor),
    rep p least k left pos groups rest = Some c' ->
    exists c'' consumed,
      advanced {| c_left := left; c_pos := pos; c_rest := rest;
                  c_groups := groups |} c'' consumed /\
      forallb p consumed = true /\ c_groups c'' = groups /\
      k c'' = Some c'.
Proof.
  induction rest as [|x rest IH]; intros least left pos c' H.
  - simpl in H. destruct least; [|discriminate].
    exists {| c_left := left; c_pos := pos; c_rest := [];
              c_groups := groups |}, [].
    repeat split; simpl; auto.
  - assert (Stop : (match least with
                    | O => k {| c_left := left; c_pos := pos;
                                c_rest := x :: rest; c_groups := groups |}
                    | S _ => None
                    end) = Some c' ->
                   exists c'' consumed,
                     advanced {| c_left := left; c_pos := pos;
                                 c_rest := x :: rest; c_groups := groups |}
                              c'' consumed /\
                     forallb p consumed = true /\ c_groups c'' = groups /\
                     k c'' = Some c').
    { intros E. destruct least; [|discriminate].
      exists {| c_left := left; c_pos := pos; c_rest := x :: rest;
                c_groups := groups |}, [].
      repeat split; simpl; auto. }
    simpl in H. destruct (p x) eqn:Px; [|apply Stop, H].
    destruct (rep p (pred least) k (Some x) (S pos) groups rest) as [c0|] eqn:E;
      [|apply Stop, H].
    injection H as ->. apply IH in E.
    destruct E as (c'' & consumed & [R P] & F & G & K). simpl in R, P.
    exists c'', (x :: consumed). split; [split; simpl|].
    + rewrite R. reflexivity.
    + rewrite P. lia.
    + split; [simpl; rewrite Px, F; reflexivity|]. split; assumption.
Qed.

Lemma forallb_excludes (p : cp -> bool) (x : cp) (s : str) :
  forallb p s = true -> p x = false -> ~ In x s.
Proof.
  intros F Hx Hin. rewrite forallb_forall in F. apply F in Hin. congruence.
Qed.

Lemma In_join (x : cp) (sep : str) (parts : list str) :
  In x (join sep parts) ->
  In x sep \/ exists part, In part parts /\ In x part.
Proof.
  induction parts as [|p ps IH]; simpl; [tauto|].
  destruct ps as [|q ps].
  - intros H. right. exists p. auto.
  - intros H. apply in_app_or in H. destruct H as [H|H].
    + right. exists p. auto.
    + apply in_app_or in H. destruct H as [H|H]; [left; exact H|].
      apply IH in H. destruct H as [H|(part & Hp & Hx)]; [left; exact H|].
      right. exists part. split; [right; exact Hp | exact Hx].
Qed.

Lemma In_replace_scan (x : cp) (old new : str) (s : str) :
  forall k, In x (replace_scan old new k s) -> In x s \/ In x new.
Proof.
  induction s as [|c s IH]; intros k H; simpl in H; [tauto|].
  destruct k as [|k].
  - destruct (starts_with old (c :: s)).
    + apply in_app_or in H. destruct H as [H|H]; [right; exact H|].
      apply IH in H. simpl. tauto.
    + destruct H as [<-|H]; [left; left; reflexivity|].
      apply IH in H. simpl. tauto.
  - apply IH in H. simpl. tauto.
Qed.

Lemma In_str_replace (x : cp) (old new s : str) :
  In x (str_replace old new s) -> In x s \/ In x new.
Proof.
  unfold str_replace. destruct old as [|o old]; [|apply In_replace_scan].
  intros H. apply in_app_or in H. destruct H as [H|H]; [right; exact H|].
  apply in_flat_map in H. destruct H as (c & Hc & [<-|H]); auto.
Qed.

Lemma split_class_in (p : cp -> bool) (s : str) :
  forall in_run piece c,
    In piece (split_class p in_run s) -> In c piece -> In c s.
Proof.
  induction s as [|x s IH]; intros in_run piece c Hp Hc; simpl in Hp.
  - destruct Hp as [<-|[]]. destruct Hc.
  - destruct (p x).
    + right. destruct in_run; [eapply IH; eassumption|].
      destruct Hp as [<-|Hp]; [destruct Hc | eapply IH; eassumption].
    + specialize (IH false). destruct (split_class p false s) as [|q qs];
        [destruct Hp|].
      destruct Hp as [<-|Hp].
      * destruct Hc as [<-|Hc]; [left; reflexivity|].
        right. eapply IH; [left; reflexivity | exact Hc].
      * right. eapply IH; [right; exact Hp | exact Hc].
Qed.

Lemma assoc_group_without (x : cp) (n : nat) (gs : list (nat * str)) :
  groups_without x gs -> ~ In x (assoc_group n gs).
Proof.
  induction gs as [|[i s] gs IH]; simpl; intros H; [tauto|].
  inversion H; subst. destruct (Nat.eqb i n); auto.
Qed.

Lemma for_each_keeps (A B : Type) (P : B -> Prop) (step : B -> A -> result B)
    (xs : list A) :
  (forall acc x acc', In x xs -> P acc -> step acc x = Ok acc' -> P acc') ->
  forall acc r, P acc -> for_each step xs acc = Ok r -> P r.
Proof.
  induction xs as [|x xs IH]; intros Hstep acc r Hacc H; simpl in H.
  - injection H as <-. exact Hacc.
  - destruct (step acc x) as [acc'|e] eqn:E; simpl in H; [|discriminate].
    eapply IH; [| |exact H].
    + intros a y a' Hy. apply Hstep. right. exact Hy.
    + eapply Hstep; [left; reflexivity | exact Hacc | exact E].
Qed.

Section InvariantExtras.
Context {U : UnicodeData}.

(** The text a pattern consumes holds no code point that none of its
    tests accepts, and neither do the groups it captures. *)
Lemma run_excludes (x : cp) (r : regex) :
  forall (k : cursor -> option cursor) (c c' : cursor),
    run r k c = Some c' ->
    exists c'' consumed,
      advanced c c'' consumed /\
      (never_matches x r = true -> ~ In x consumed) /\
      (groups_exclude x r = true -> groups_without x (c_groups c) ->
       groups_without x (c_groups c'')) /\
      k c'' = Some c'.
Proof.
  induction r as [|p|r1 IH1 r2 IH2|r1 IH1 r2 IH2|r1 IH1|p least|n r1 IH1|];
    intros k c c' H; simpl in H.
  - exists c, []. split; [split; simpl; [reflexivity | lia]|]. auto.
  - destruct (c_rest c) as [|y rest] eqn:E; [discriminate|].
    destruct (p y) eqn:Py; [|discriminate].
    exists (advance c y rest), [y].
    split; [split; simpl; [exact E | lia]|]. split; [|split; auto].
    simpl. intros Hn [->|[]]. rewrite Py in Hn. discriminate.
  - apply IH1 in H. destruct H as (c1 & s1 & A1 & N1 & G1 & H).
    apply IH2 in H. destruct H as (c2 & s2 & A2 & N2 & G2 & H).
    exists c2, (s1 ++ s2). split; [eapply advanced_trans; eassumption|].
    simpl. split; [|split; [|exact H]].
    + intros Hn Hin. apply andb_true_iff in Hn. destruct Hn as [Hn1 Hn2].
      apply in_app_or in Hin. destruct Hin; [apply N1 | apply N2]; assumption.
    + intros Hg Hc. apply andb_true_iff in Hg. destruct Hg as [Hg1 Hg2]. auto.
  - simpl. destruct (run r1 k c) as [c0|] eqn:E.
    + injection H as ->. apply IH1 in E.
      destruct E as (c1 & s1 & A1 & N1 & G1 & K). exists c1, s1.
      split; [exact A1|]. split; [|split; [|exact K]].
      * intros Hn. apply andb_true_iff in Hn. tauto.
      * intros Hg. apply andb_true_iff in Hg. tauto.
    + apply IH2 in H. destruct H as (c2 & s2 & A2 & N2 & G2 & K).
      exists c2, s2. split; [exact A2|]. split; [|split; [|exact K]].
      * intros Hn. apply andb_true_iff in Hn. tauto.
      * intros Hg. apply andb_true_iff in Hg. tauto.
  - simpl. destruct (run r1 k c) as [c0|] eqn:E.
    + injection H as ->. apply IH1 in E.
      destruct E as (c1 & s1 & A1 & N1 & G1 & K). exists c1, s1. auto.
    + exists c, []. split; [split; simpl; [reflexivity | lia]|]. auto.
  - apply rep_groups in H. destruct H as (c'' & consumed & A & F & G & K).
    exists c'', consumed. destruct c as [cl cp0 cr cg]. simpl in *.
    split; [exact A|]. split; [|split; [|exact K]].
    + intros Hn. apply (@forallb_excludes p x consumed F).
      apply negb_true_iff, Hn.
    + intros _ Hc. rewrite G. exact Hc.
  - apply IH1 in H. destruct H as (c1 & s1 & [R P] & N1 & G1 & K).
    exists (close_group n c c1), s1.
    split; [split; simpl; assumption|]. simpl.
    split; [exact N1|]. split; [|exact K].
    intros Hg Hc. apply andb_true_iff in Hg. destruct Hg as [Hn Hg].
    constructor; [|apply G1; assumption]. simpl.
    rewrite P, R.
    replace (c_pos c + length s1 - c_pos c) with (length s1) by lia.
    rewrite firstn_app, firstn_all, Nat.sub_diag. simpl.
    rewrite app_nil_r. apply N1, Hn.
  - destruct (xorb _ _); [|discriminate].
    exists c, []. split; [split; simpl; [reflexivity | lia]|]. auto.
Qed.

Lemma finditer_groups_without (x : cp) (r : regex) (s : str) (m : re_match) :
  groups_exclude x r = true -> In m (finditer r s) ->
  groups_without x (m_groups m).
Proof.
  intros Hg H. apply scan_in in H. destruct H as (left & pos & rest & H).
  unfold match_here in H.
  destruct (run r Some _) as [c|] eqn:E; [|discriminate].
  injection H as <-. simpl. apply (run_excludes x) in E.
  destruct E as (c'' & consumed & _ & _ & G & K). injection K as ->.
  apply G; [exact Hg | constructor].
Qed.

Lemma split_items_in (x : cp) (content item : str) :
  In item (split_items content) -> In x item -> In x content.
Proof.
  unfold split_items, item_delimiters. rewrite re_split_rep.
  intros H Hx. apply filter_In in H. destruct H as [H _].
  apply in_map_iff in H. destruct H as (piece & <- & Hp).
  apply strip_in in Hx. eapply split_class_in; eassumption.
Qed.

(** X8: Rewriting never adds a line break or a bullet: the text after the
    banner holds a newline only if the résumé text did, and a bullet
    only if the résumé text did. *)
Theorem rewriting_adds_no_break (resume_text : str) (keywords : list str)
    (job_title company_name : str) :
  exists polished_text,
    polish_resume (PStr resume_text) (PList (map PStr keywords))
      (PStr job_title) (PStr company_name)
    = Ok (PStr (tailored_banner keywords job_title company_name
                  ++ polished_text)) /\
    (In LF polished_text -> In LF resume_text) /\
    (In BULLET polished_text -> In BULLET resume_text).
Proof.
  assert (Hx : forall x, x = LF \/ x = BULLET ->
             forall polished,
               for_each (rewrite_pattern (PList (map PStr keywords)))
                 skill_patterns resume_text = Ok polished ->
               In x polished -> In x resume_text).
  { intros x Hxx polished H Hin.
    assert (Hsep : ~ In x (lit ", ") /\ ~ In x (lit ": ")).
    { destruct Hxx as [-> | ->]; split; vm_compute; intuition discriminate. }
    assert (Hpat : forall pattern, In pattern skill_patterns ->
                                   groups_exclude x pattern = true).
    { intros pattern [<-|[<-|[<-|[]]]]; destruct Hxx as [-> | ->];
        vm_compute; reflexivity. }
    destruct (in_dec N.eq_dec x resume_text) as [Hr|Hr]; [exact Hr|].
    exfalso. revert Hin.
    apply (for_each_keeps (fun t => ~ In x t)
             (rewrite_pattern (PList (map PStr keywords))) skill_patterns)
      with (acc := resume_text); [|exact Hr|exact H].
    intros acc pattern acc' Hp Hacc Hstep. unfold rewrite_pattern in Hstep.
    revert Hstep.
    apply (for_each_keeps (fun t => ~ In x t)); [|exact Hacc].
    intros t m t' Hm Ht Hsec. rewrite rewrite_section_str in Hsec.
    pose proof (@finditer_groups_without x pattern acc m (Hpat _ Hp) Hm) as Hg.
    destruct (split_items (group m 2)) as [|item items] eqn:Ei.
    { injection Hsec as <-. exact Ht. }
    assert (E : t' = str_replace (group m 0)
                       (group m 1 ++ lit ": "
                          ++ join (lit ", ") (reorder keywords (item :: items)))
                       t) by congruence.
    rewrite E. clear E Hsec.
    intros Hin. apply In_str_replace in Hin.
    destruct Hin as [Hin|Hin]; [exact (Ht Hin)|].
    apply in_app_or in Hin. destruct Hin as [Hin|Hin].
    { revert Hin. apply assoc_group_without, Hg. }
    apply in_app_or in Hin. destruct Hin as [Hin|Hin]; [tauto|].
    apply In_join in Hin. destruct Hin as [Hin|(part & Hpart & Hin)]; [tauto|].
    unfold reorder in Hpart.
    apply (Permutation_in _ (Permutation_sym (sorted_desc_perm _ _))) in Hpart.
    rewrite <- Ei in Hpart.
    apply (@split_items_in x _ _ Hpart) in Hin.
    revert Hin. apply assoc_group_without, Hg. }
  destruct (for_each_returns
              (rewrite_pattern (PList (map PStr keywords))) skill_patterns)
    with (acc := resume_text) as [polished H].
  - intros acc pattern. unfold rewrite_pattern. apply for_each_returns.
    intros acc' m. rewrite rewrite_section_str. eexists. reflexivity.
  - exists polished. split; [apply polish_resume_str, H|].
    split; apply Hx with (polished := polished); auto.
Qed.

End InvariantExtras.

(** ** The further properties at concrete inputs *)

Lemma extract_keywords_length_witness :
  (Z.of_nat (length (extract_keywords (U := caseless_beyond_ascii)
                       (lit "python flask docker") 2)) <= 2)%Z.
Proof.
  apply (@extract_keywords_length caseless_beyond_ascii
           (lit "python flask docker") 2).
  lia.
Defined.

Lemma extract_keywords_words_witness :
  3 <= length (lit "python") /\
  forallb is_ascii_letter (lit "python") = true /\
  member (lit "python") stop_words = false.
Proof.
  apply (@extract_keywords_words caseless_beyond_ascii
           (lit "The Python, and the flask") 1 (lit "python")).
  vm_compute. left. reflexivity.
Defined.

Lemma extract_keywords_monotone_witness :
  exists l1 l2 l3,
    extract_keywords (U := caseless_beyond_ascii)
      (lit "flask python docker python") 2
    = l1 ++ lit "python" :: l2 ++ lit "flask" :: l3.
Proof.
  apply (@extract_keywords_monotone caseless_beyond_ascii
           (lit "flask python docker python") 2 (lit "python") (lit "flask")).
  - lia.
  - vm_compute. right. left. reflexivity.
  - vm_compute. right. left. reflexivity.
  - vm_compute. lia.
Defined.

Lemma split_items_clean_witness :
  lit "Java EE" <> [] /\ trimmed (lit "Java EE") /\
  forall c, In c (lit "Java EE") -> is_delimiter c = false.
Proof.
  apply (@split_items_clean caseless_beyond_ascii
           (lit " Python;; Java EE ,") (lit "Java EE")).
  vm_compute. right. left. reflexivity.
Defined.

Lemma rewrite_section_keeps_order_witness :
  rewrite_section (U := caseless_beyond_ascii) (PList (map PStr [lit "rust"]))
    repeated_section first_section_match
  = Ok (str_replace (group first_section_match 0)
          (group first_section_match 1 ++ lit ": "
             ++ join (lit ", ")
                  (split_items (U := caseless_beyond_ascii)
                     (group first_section_match 2)))
          repeated_section).
Proof.
  apply (@rewrite_section_keeps_order caseless_beyond_ascii [lit "rust"]
           repeated_section first_section_match).
  - vm_compute. discriminate.
  - vm_compute. repeat constructor.
Defined.

Lemma process_job_success_witness :
  exists resume_text cover_template polished generated : str,
    field offline_world "job_title" <> [] /\
    field offline_world "company_name" <> [] /\
    field offline_world "job_description" <> [] /\
    files offline_world resume_text_path = Some (Ok resume_text) /\
    files offline_world cover_text_path = Some (Ok cover_template) /\
    fpdf offline_world polished (resume_pdf_path offline_world)
      (lit "Tailored Resume - " ++ field offline_world "job_title") = true /\
    fpdf offline_world generated (cover_pdf_path offline_world)
      (lit "Cover Letter - " ++ field offline_world "job_title") = true /\
    zip offline_world (zip_path offline_world) (zip_members offline_world)
      = Ok tt /\
    body (Build_response 200
            (Success (resume_pdf_path offline_world)
               (cover_pdf_path offline_world) (zip_path offline_world)
               [lit "python"; lit "developer"]))
    = Success (resume_pdf_path offline_world) (cover_pdf_path offline_world)
        (zip_path offline_world)
        (extract_keywords (U := caseless_beyond_ascii)
           (field offline_world "job_description") 10) /\
    snd (process_job (U := caseless_beyond_ascii) offline_world []) =
    [Ranked (field offline_world "job_description");
     Polished resume_text
       (extract_keywords (U := caseless_beyond_ascii)
          (field offline_world "job_description") 10);
     Posted OLLAMA_URL
       (cover_payload resume_text cover_template
          (field offline_world "job_title")
          (field offline_world "company_name")
          (field offline_world "job_description"));
     Rendered (PStr polished) (resume_pdf_path offline_world)
       (lit "Tailored Resume - " ++ field offline_world "job_title");
     Rendered (PStr generated) (cover_pdf_path offline_world)
       (lit "Cover Letter - " ++ field offline_world "job_title");
     Zipped (zip_path offline_world) (zip_members offline_world)].
Proof.
  apply (@process_job_success caseless_beyond_ascii offline_world
           (Build_response 200
              (Success (resume_pdf_path offline_world)
                 (cover_pdf_path offline_world) (zip_path offline_world)
                 [lit "python"; lit "developer"]))
           (snd (process_job (U := caseless_beyond_ascii) offline_world []))).
  - vm_compute. reflexivity.
  - reflexivity.
Defined.

Lemma blank_field_rejected_witness :
  process_job (U := caseless_beyond_ascii)
    (example_world [("job_title", "Developer"); ("company_name", "   ")]%string
       (Some "resume"%string) (Some "cover"%string)) []
  = (Ok {| status := 400; body := Error (lit "All fields are required") |}, []).
Proof.
  apply (@blank_field_rejected caseless_beyond_ascii _ "job_description"%string).
  - simpl. auto.
  - vm_compute. reflexivity.
Defined.

Lemma unreadable_template_witness :
  process_job (U := caseless_beyond_ascii) unreadable_world [] =
  (Ok {| status := 500;
         body := Error (lit "Processing failed: " ++ lit "Permission denied") |},
   []).
Proof.
  apply (@unreadable_template caseless_beyond_ascii unreadable_world
           {| exn_class_of := OtherException;
              exn_str := lit "Permission denied" |}).
  - vm_compute. discriminate.
  - vm_compute. discriminate.
  - vm_compute. discriminate.
  - left. split; [vm_compute; reflexivity | vm_compute; discriminate].
  - reflexivity.
Defined.

Lemma generated_cover_rendered_witness :
  In (Rendered (PStr (lit "Dear Acme Team,")) (cover_pdf_path online_world)
        (lit "Cover Letter - " ++ field online_world "job_title"))
     (snd (process_job (U := caseless_beyond_ascii) online_world [])).
Proof.
  apply (@generated_cover_rendered caseless_beyond_ascii online_world
           (lit "SKILLS: Java") (lit "Dear team") (lit "{}")
           (lit "Dear Acme Team,")
           [(lit "response", PStr (lit "Dear Acme Team,"))]);
    try (vm_compute; discriminate); vm_compute; reflexivity.
Defined.

Lemma upload_invalid_resume_witness :
  upload_templates (U := caseless_beyond_ascii)
    (example_request (Some script_upload) (Some cover_upload)) empty_store =
  (Ok {| upload_status := 400;
         upload_body_of := UploadError (lit "Invalid file type for resume") |},
   empty_store).
Proof.
  apply (@upload_invalid_resume caseless_beyond_ascii _ _ script_upload).
  - reflexivity.
  - vm_compute. discriminate.
  - vm_compute. reflexivity.
Defined.


Lemma upload_nothing_witness :
  upload_templates (U := caseless_beyond_ascii)
    (example_request None (Some {| filename := []; pages := Ok [] |}))
    empty_store =
  (Ok {| upload_status := 400;
         upload_body_of := UploadError (lit "No valid files uploaded") |},
   empty_store).
Proof.
  apply (@upload_nothing caseless_beyond_ascii); simpl; auto.
Defined.




(** The résumé template that the upload of [resume_upload] stores: the
    page texts joined, whitespace collapsed, trimmed. *)
Example resume_upload_text :
  extract_pdf_text (U := caseless_beyond_ascii) (pages resume_upload)
  = lit "SKILLS: Java, Python Hobbies".
Proof. vm_compute. reflexivity. Qed.
